(** * Order statistics, median blur and colour calibration

    A shallow embedding of [median_blur.c] and [calibration.c], and of the
    steering of [main_snake.c], with the properties their specification
    states about them and further properties read off the code.

    Conventions of the embedding.
    - A C [int] is a [Z] and its arithmetic is exact: the indices and
      counters of these programs are bounded by the sizes of the buffers
      they walk, which fit an [int] (the one product that could leave the
      range is [3 * (num_elements - 1)] in [upper_quartile], for a
      container of more than 715827883 bytes).
    - An [unsigned char] is a [Z] in [0, 256).  A byte buffer (an
      [unsigned char *], or the [imageData] of a frame, whose bytes are
      read by their unsigned value) is a [list Z]; a read or write outside
      the buffer is undefined in C and is the outcome [Fault] here.
    - A loop whose trip count is not fixed by its header runs on fuel and
      yields [OutOfFuel] when the fuel is spent; termination is then a
      theorem about the fuel, not an assumption. *)

From Stdlib Require Import ZArith Lia String DecimalString SpecFloat.
From stdpp Require Import base list sorting.

Local Open Scope Z_scope.

(** ** Outcomes of a run *)

Inductive outcome (A : Type) : Type :=
| Done (a : A)                              (* normal completion *)
| Exit (status : Z) (stderr : string)       (* exit(status) after writing to stderr *)
| Fault                                     (* out-of-bounds or null access *)
| OutOfFuel.                                (* the model's fuel ran out *)
Arguments Done {A} a.
Arguments Exit {A} status stderr.
Arguments Fault {A}.
Arguments OutOfFuel {A}.

#[global] Instance outcome_ret : MRet outcome := λ A a, Done a.
#[global] Instance outcome_bind : MBind outcome := λ A B f m,
  match m with
  | Done a => f a
  | Exit s e => Exit s e
  | Fault => Fault
  | OutOfFuel => OutOfFuel
  end.

(** ** Byte buffers *)

Definition load (a : list Z) (i : Z) : outcome Z :=
  if 0 <=? i then
    match a !! Z.to_nat i with
    | Some v => Done v
    | None => Fault
    end
  else Fault.

Definition store (a : list Z) (i : Z) (v : Z) : outcome (list Z) :=
  if (0 <=? i) && (i <? Z.of_nat (length a)) then Done (<[Z.to_nat i := v]> a)
  else Fault.

(** The byte at index [k], for statements about a buffer's contents. *)
Definition sel (a : list Z) (k : Z) : Z := default 0 (a !! Z.to_nat k).

(** ** Loops over a mutable state

    A statement that mutates a state [S] maps the state to the state it
    leaves and an outcome; when the outcome is not [Done] the state is the
    one reached when the run stopped. *)

Definition run (S : Type) : Type := (S * outcome unit)%type.

(** One step computed in the [outcome] monad; nothing is written when it
    does not complete. *)
Definition atomic {S : Type} (f : S → outcome S) (s : S) : run S :=
  match f s with
  | Done s' => (s', Done ())
  | Exit st e => (s, Exit st e)
  | Fault => (s, Fault)
  | OutOfFuel => (s, OutOfFuel)
  end.

(** [p; q] *)
Definition seq_run {S : Type} (p q : S → run S) (s : S) : run S :=
  match p s with
  | (s', Done _) => q s'
  | r => r
  end.

(** A [for (int i = lo; i < hi; i++) body] whose body leaves [i] and [hi]
    alone: [n] is the number of iterations left. *)
Fixpoint for_loop {S : Type} (n : nat) (i : Z) (body : Z → S → run S) (s : S)
  : run S :=
  match n with
  | O => (s, Done ())
  | S n' =>
      match body i s with
      | (s', Done _) => for_loop n' (i + 1) body s'
      | r => r
      end
  end.

Definition for_range {S : Type} (lo hi : Z) (body : Z → S → run S) (s : S)
  : run S :=
  for_loop (Z.to_nat (hi - lo)) lo body s.

(** ** median_blur.c: the order-statistic filter *)

Definition BLUR_RADIUS : Z := 5.

(** [swap]: temp = a[i]; a[i] = a[j]; a[j] = temp. *)
Definition swap (array_list : list Z) (i j : Z) : outcome (list Z) :=
  temp ← load array_list i;
  vj ← load array_list j;
  a1 ← store array_list i vj;
  store a1 j temp.

(** [for (; i <= right && array_list[i] <= pivot; i++);] *)
Fixpoint scan_up (fuel : nat) (array_list : list Z) (right pivot i : Z) : outcome Z :=
  match fuel with
  | O => OutOfFuel
  | S fuel' =>
      if i <=? right then
        v ← load array_list i;
        if v <=? pivot then scan_up fuel' array_list right pivot (i + 1)
        else Done i
      else Done i
  end.

(** [for (; array_list[j] > pivot; j--);] *)
Fixpoint scan_down (fuel : nat) (array_list : list Z) (pivot j : Z) : outcome Z :=
  match fuel with
  | O => OutOfFuel
  | S fuel' =>
      v ← load array_list j;
      if v >? pivot then scan_down fuel' array_list pivot (j - 1)
      else Done j
  end.

(** The [while (i < j)] loop of [partition]; it returns the buffer and [j]. *)
Fixpoint partition_loop (fuel : nat) (array_list : list Z) (right pivot i j : Z)
  : outcome (list Z * Z) :=
  match fuel with
  | O => OutOfFuel
  | S fuel' =>
      if i <? j then
        i' ← scan_up fuel' array_list right pivot i;
        j' ← scan_down fuel' array_list pivot j;
        a' ← (if i' <? j' then swap array_list i' j' else Done array_list);
        partition_loop fuel' a' right pivot i' j'
      else Done (array_list, j)
  end.

Definition partition (fuel : nat) (array_list : list Z) (left right : Z)
  : outcome (list Z * Z) :=
  pivot ← load array_list left;
  '(a, j) ← partition_loop fuel array_list right pivot left right;
  a' ← swap a left j;
  Done (a', j).

Fixpoint quick_sort (fuel : nat) (array_list : list Z) (left right : Z)
  : outcome (list Z) :=
  match fuel with
  | O => OutOfFuel
  | S fuel' =>
      if left <? right then
        '(a, j) ← partition fuel' array_list left right;
        a1 ← quick_sort fuel' a left (j - 1);
        quick_sort fuel' a1 (j + 1) right
      else Done array_list
  end.

(** The three queries sort the caller's buffer and index it; the sorted
    buffer is returned with the value since the caller's array is mutated.
    [/] on [int] truncates: [Z.quot]. *)
Definition lower_quartile (fuel : nat) (array_list : list Z) (num_elements : Z)
  : outcome (list Z * Z) :=
  a ← quick_sort fuel array_list 0 (num_elements - 1);
  v ← load a ((num_elements - 1) ÷ 4);
  Done (a, v).

Definition median (fuel : nat) (array_list : list Z) (num_elements : Z)
  : outcome (list Z * Z) :=
  a ← quick_sort fuel array_list 0 (num_elements - 1);
  v ← load a ((num_elements - 1) ÷ 2);
  Done (a, v).

Definition upper_quartile (fuel : nat) (array_list : list Z) (num_elements : Z)
  : outcome (list Z * Z) :=
  a ← quick_sort fuel array_list 0 (num_elements - 1);
  v ← load a (3 * (num_elements - 1) ÷ 4);
  Done (a, v).

(** *** The median blur filter *)

Record IplImage : Type := {
  nChannels : Z;
  width : Z;
  height : Z;
  widthStep : Z;
  imageData : list Z
}.

Definition set_imageData (frame : IplImage) (d : list Z) : IplImage :=
  {| nChannels := nChannels frame; width := width frame; height := height frame;
     widthStep := widthStep frame; imageData := d |}.

Definition EXIT_FAILURE : Z := 1.

(** [%d] *)
Definition dec (n : Z) : string := NilZero.string_of_int (Z.to_int n).

Definition newline : string := String (Ascii.ascii_of_nat 10) EmptyString.

Definition num_offsets : Z := 2 * BLUR_RADIUS + 1.
Definition num_elements : Z := num_offsets * num_offsets.

(** The memory [median_blur] works on: the frame's pixel bytes and the
    local [unsigned char array_list[num_elements]]. *)
Record blur_state : Type := { img : list Z; buf : list Z }.

(** [array_list[num_offsets * yo + xo]
       = frame->imageData[(y + yo - BLUR_RADIUS) * frame->widthStep + x + xo - BLUR_RADIUS]] *)
Definition gather_sample (frame : IplImage) (x y yo xo : Z) : blur_state → run blur_state :=
  atomic (λ s,
    v ← load (img s) ((y + yo - BLUR_RADIUS) * widthStep frame + x + xo - BLUR_RADIUS);
    b ← store (buf s) (num_offsets * yo + xo) v;
    Done {| img := img s; buf := b |}).

(** The two gathering loops, as written: [yo <= num_offsets] and
    [xo <= num_offsets], so both run over 0..num_offsets inclusive. *)
Definition gather (frame : IplImage) (x y : Z) : blur_state → run blur_state :=
  for_range 0 (num_offsets + 1) (λ yo,
    for_range 0 (num_offsets + 1) (λ xo, gather_sample frame x y yo xo)).

(** [frame->imageData[y * frame->widthStep + x] = median(array_list, num_elements)] *)
Definition put_median (fuel : nat) (frame : IplImage) (x y : Z) : blur_state → run blur_state :=
  atomic (λ s,
    '(b, m) ← median fuel (buf s) num_elements;
    d ← store (img s) (y * widthStep frame + x) m;
    Done {| img := d; buf := b |}).

Definition blur_pixels (fuel : nat) (frame : IplImage) : blur_state → run blur_state :=
  for_range BLUR_RADIUS (height frame - BLUR_RADIUS) (λ y,
    for_range BLUR_RADIUS (width frame - BLUR_RADIUS) (λ x,
      seq_run (gather frame x y) (put_median fuel frame x y))).

(** [median_blur]: the frame as the call leaves it, and the outcome.  The
    local array starts with unspecified contents, zero here.  (The source
    lacks the semicolon after the gathering assignment and a return
    statement; the statements are embedded as they read.) *)
Definition median_blur (fuel : nat) (frame : IplImage) : IplImage * outcome unit :=
  if negb (nChannels frame =? 1) then
    (frame,
     Exit EXIT_FAILURE
       ("median_blur was called with " ++ dec (nChannels frame)
        ++ " channels, but only supports 1 channel." ++ newline)%string)
  else
    let '(s, r) :=
      blur_pixels fuel frame
        {| img := imageData frame; buf := replicate (Z.to_nat num_elements) 0 |} in
    (set_imageData frame (img s), r).

(** ** calibration.c *)

(** [CvScalar]: four doubles; they only ever hold byte values here. *)
Definition CvScalar : Type := list Z.
Definition cvScalar (a b c : Z) : CvScalar := [a; b; c; 0].

Record calibration_t : Type := {
  h_max : Z;
  h_min : Z;
  s_max : Z;
  s_min : Z;
  v_max : Z;
  v_min : Z;
  done : bool;
  upper : CvScalar;
  lower : CvScalar
}.

Definition in_box (x y box_x box_y width height : Z) : bool :=
  (x >? box_x - width) && (x <? box_x + width)
  && (y >? box_y - height) && (y <? box_y + height).

(** The [(unsigned char)] cast of a stored byte. *)
Definition uchar (v : Z) : Z := v mod 256.

(** [imageData[a] = (unsigned char) (imageData[a]) / 4] at
    [a = y * widthStep + x * nChannels + w] *)
Definition darken (frame : IplImage) (x y w : Z) : list Z → run (list Z) :=
  atomic (λ d,
    let a := y * widthStep frame + x * nChannels frame + w in
    v ← load d a;
    store d a (uchar v ÷ 4)).

Definition overlay_pixels (frame : IplImage) (reg_x reg_y reg_height reg_width : Z)
  : list Z → run (list Z) :=
  for_range 0 (height frame) (λ y,
    for_range 0 (width frame) (λ x,
      if negb (in_box x y reg_x reg_y reg_width reg_height) then
        for_range 0 (nChannels frame) (λ w, darken frame x y w)
      else λ d, (d, Done ()))).

Definition overlay_frame (frame : IplImage) (reg_x reg_y reg_height reg_width : Z)
  : IplImage * outcome unit :=
  let '(d, r) := overlay_pixels frame reg_x reg_y reg_height reg_width (imageData frame) in
  (set_imageData frame d, r).

(** *** Doubles

    IEEE 754 binary64 with round-to-nearest-even, as the Standard Library
    specifies it. *)

Definition prec : Z := 53.
Definition emax : Z := 1024.
Definition double : Type := spec_float.

Definition dmul : double → double → double := SFmul prec emax.
Definition dadd : double → double → double := SFadd prec emax.
Definition dsub : double → double → double := SFsub prec emax.

(** Conversion of an [int] to [double]. *)
Definition double_of_int (n : Z) : double := binary_normalize prec emax n 0 false.

(** The integer part of a double (conversion to an integer type truncates
    toward zero). *)
Definition int_of_double (d : double) : Z :=
  match d with
  | S754_finite s m e =>
      let q := if 0 <=? e then Z.pos m * 2 ^ e else Z.pos m / 2 ^ (- e) in
      if s then - q else q
  | _ => 0
  end.

(** Assignment of a double to an [unsigned char] field.  ISO C leaves the
    conversion undefined when the integer part is above 255; the compiled
    reference converts to [int] and keeps the low eight bits (no clamping),
    which is what is written out here. *)
Definition uchar_of_double (d : double) : Z := int_of_double d mod 256.

(** The literal [0.4]: the double nearest to 2/5. *)
Definition range : double := S754_finite false 7205759403792794 (-54).

(** [u * (1 - range)] and [u * (1 + range)] for an [unsigned char] u,
    assigned to an [unsigned char]. *)
Definition band_min (u : Z) : Z :=
  uchar_of_double (dmul (double_of_int u) (dsub (double_of_int 1) range)).
Definition band_max (u : Z) : Z :=
  uchar_of_double (dmul (double_of_int u) (dadd (double_of_int 1) range)).

(** *** Sample containers *)

(** Modelled from the spec: [init_arr], which is not among the sources; it
    makes a sample container of [size] bytes (the spec's resizable flat
    container created fresh per sampling operation). *)
Definition init_arr (size : Z) : list Z := replicate (Z.to_nat size) 0.

(** Modelled from the spec: [avg], which is not among the sources; it is the
    arithmetic mean of the container's bytes.  Assigned to an
    [unsigned char] field, the mean is cut to its integer part; the mean of
    an empty container is a division by zero. *)
Definition avg (arr : list Z) : outcome Z :=
  if Z.of_nat (length arr) =? 0 then Fault
  else Done (foldr Z.add 0 arr ÷ Z.of_nat (length arr)).

(** Modelled from the spec: [standard_dev], which is not among the sources;
    it computes a population standard deviation that the caller drops, and
    leaves the container as it was. *)
Definition standard_dev (arr : list Z) : list Z := arr.

Record sample_state : Type := {
  h_arr : list Z;
  s_arr : list Z;
  v_arr : list Z;
  idx : Z
}.

(** The counting loops: [size++] once per sampled pixel. *)
Definition count_region (reg_x reg_y reg_height reg_width : Z) : Z → run Z :=
  for_range (reg_y - reg_height) (reg_y + reg_height) (λ y,
    for_range (reg_x - reg_width) (reg_x + reg_width) (λ x,
      atomic (λ size, Done (size + 1)))).

Definition sample_pixel (frame : IplImage) (x y : Z) : sample_state → run sample_state :=
  atomic (λ st,
    let a := y * widthStep frame + x * nChannels frame in
    h ← load (imageData frame) a;
    ha ← store (h_arr st) (idx st) h;
    s ← load (imageData frame) (a + 1);
    sa ← store (s_arr st) (idx st) s;
    v ← load (imageData frame) (a + 2);
    va ← store (v_arr st) (idx st) v;
    Done {| h_arr := ha; s_arr := sa; v_arr := va; idx := idx st + 1 |}).

Definition sample_region (frame : IplImage) (reg_x reg_y reg_height reg_width : Z)
  : sample_state → run sample_state :=
  for_range (reg_y - reg_height) (reg_y + reg_height) (λ y,
    for_range (reg_x - reg_width) (reg_x + reg_width) (λ x,
      sample_pixel frame x y)).

(** A run that completed, in the [outcome] monad. *)
Definition completed {S : Type} (r : run S) : outcome S :=
  match r with
  | (s, Done _) => Done s
  | (_, Exit st e) => Exit st e
  | (_, Fault) => Fault
  | (_, OutOfFuel) => OutOfFuel
  end.

(** [final_calibration]; the diagnostic [printf]s are left out. *)
Definition final_calibration (frame : IplImage) (c : calibration_t)
    (reg_x reg_y reg_height reg_width : Z) : outcome calibration_t :=
  size ← completed (count_region reg_x reg_y reg_height reg_width 0);
  st ← completed (sample_region frame reg_x reg_y reg_height reg_width
          {| h_arr := init_arr size; s_arr := init_arr size;
             v_arr := init_arr size; idx := 0 |});
  let h := standard_dev (h_arr st) in
  let s := standard_dev (s_arr st) in
  let v := standard_dev (v_arr st) in
  h_avg ← avg h;
  let hmin := band_min h_avg in
  let hmax := band_max h_avg in
  s_avg ← avg s;
  let smin := band_min s_avg in
  let smax := band_max s_avg in
  v_avg ← avg v;
  let vmin := band_min v_avg in
  let vmax := band_max v_avg in
  Done {| h_max := hmax; h_min := hmin; s_max := smax; s_min := smin;
          v_max := vmax; v_min := vmin; done := true;
          upper := cvScalar hmax smax vmax;
          lower := cvScalar hmin smin vmin |}.

Definition generic_calibration (c : calibration_t) : calibration_t :=
  {| h_max := 25; h_min := 0; s_max := 150; s_min := 10;
     v_max := 255; v_min := 60; done := true;
     upper := upper c; lower := lower c |}.

(** *** The interactive loop

    The capture and display collaborators are the world the loop runs in:
    the keys [cvWaitKey] will return, the frames [cvQueryFrame] will return
    (a null pointer is [None]), and a log of the calls made to the display
    and colour-conversion routines. *)

Inductive event : Type :=
| EvShow (window : string) (frame : IplImage)
| EvCvtColor (frame : option IplImage) (code : Z)
| EvDestroyWindow (window : string).

Record world : Type := {
  keys : list Z;
  captures : list (option IplImage);
  events : list event
}.

Definition CV_BGR2HSV : Z := 40.
Definition CV_HSV2BGR : Z := 54.
Definition key_q : Z := 113.

(** [cvWaitKey]: the next key, -1 when none was pressed. *)
Definition cvWaitKey (w : world) : world * Z :=
  match keys w with
  | k :: ks => ({| keys := ks; captures := captures w; events := events w |}, k)
  | [] => (w, -1)
  end.

(** [cvQueryFrame]: the next frame, null when none is ready. *)
Definition cvQueryFrame (w : world) : world * option IplImage :=
  match captures w with
  | f :: fs => ({| keys := keys w; captures := fs; events := events w |}, f)
  | [] => (w, None)
  end.

Definition emit (e : event) (w : world) : world :=
  {| keys := keys w; captures := captures w; events := events w ++ [e] |}.

Record calib_state : Type := {
  cs_world : world;
  cs_frame : option IplImage;
  cs_reg_x : Z;
  cs_reg_y : Z;
  cs_reg_height : Z;
  cs_reg_width : Z;
  cs_timer : Z
}.

Section Calibrate.
(** OpenCV's [cvFlip(frame, frame, 1)] and [cvCvtColor(frame, frame, code)]
    on a frame that exists. *)
Variable cvFlip : IplImage → IplImage.
Variable cvCvtColor : Z → IplImage → IplImage.

(** The [while ((cvWaitKey(10) != 'q' || calibration->done) && timer < 90)]
    loop; [calibration->done] is [done_flag], which the loop never writes. *)
Fixpoint calibrate_loop (fuel : nat) (done_flag : bool) (st : calib_state)
  : outcome calib_state :=
  match fuel with
  | O => OutOfFuel
  | S fuel' =>
      let '(w1, k) := cvWaitKey (cs_world st) in
      if (negb (k =? key_q) || done_flag) && (cs_timer st <? 90) then
        let '(w2, frame) := cvQueryFrame w1 in
        match frame with
        | Some f =>
            let '(rx, ry, rh, rw) :=
              if cs_reg_x st =? 0
              then (width f ÷ 2, height f ÷ 2, height f ÷ 20, width f ÷ 20)
              else (cs_reg_x st, cs_reg_y st, cs_reg_height st, cs_reg_width st) in
            f1 ← completed (overlay_frame f rx ry rh rw);
            let f2 := cvFlip f1 in
            calibrate_loop fuel' done_flag
              {| cs_world := emit (EvShow "Calibrate" f2) w2;
                 cs_frame := Some f2;
                 cs_reg_x := rx; cs_reg_y := ry;
                 cs_reg_height := rh; cs_reg_width := rw;
                 cs_timer := cs_timer st + 1 |}
        | None =>
            calibrate_loop fuel' done_flag
              {| cs_world := w2;
                 cs_frame := None;
                 cs_reg_x := cs_reg_x st; cs_reg_y := cs_reg_y st;
                 cs_reg_height := cs_reg_height st;
                 cs_reg_width := cs_reg_width st;
                 cs_timer := cs_timer st + 1 |}
        end
      else
        Done {| cs_world := w1; cs_frame := cs_frame st;
                cs_reg_x := cs_reg_x st; cs_reg_y := cs_reg_y st;
                cs_reg_height := cs_reg_height st;
                cs_reg_width := cs_reg_width st;
                cs_timer := cs_timer st |}
  end.

(** [cvCvtColor(frame, frame, code)] through the frame pointer: the call
    is logged with the pointer it was given, and a null pointer cannot be
    converted. *)
Definition convert (code : Z) (frame : option IplImage) (w : world)
  : world * outcome IplImage :=
  let w' := emit (EvCvtColor frame code) w in
  match frame with
  | Some f => (w', Done (cvCvtColor code f))
  | None => (w', Fault)
  end.

(** [calibrate]: the world as the call leaves it, and the band it filled
    in.  The [printf] of the region is left out. *)
Definition calibrate (fuel : nat) (w : world) (calibration : calibration_t)
  : world * outcome calibration_t :=
  let c0 := {| h_max := h_max calibration; h_min := h_min calibration;
               s_max := s_max calibration; s_min := s_min calibration;
               v_max := v_max calibration; v_min := v_min calibration;
               done := false;
               upper := upper calibration; lower := lower calibration |} in
  match calibrate_loop fuel (done c0)
          {| cs_world := w; cs_frame := None;
             cs_reg_x := 0; cs_reg_y := 0; cs_reg_height := 0; cs_reg_width := 0;
             cs_timer := 0 |} with
  | Done st =>
      match convert CV_BGR2HSV (cs_frame st) (cs_world st) with
      | (w1, Done hsv) =>
          match final_calibration hsv c0 (cs_reg_x st) (cs_reg_y st)
                  (cs_reg_height st) (cs_reg_width st) with
          | Done c =>
              match convert CV_HSV2BGR (Some hsv) w1 with
              | (w2, Done _) => (emit (EvDestroyWindow "Calibrate") w2, Done c)
              | (w2, Exit s e) => (w2, Exit s e)
              | (w2, Fault) => (w2, Fault)
              | (w2, OutOfFuel) => (w2, OutOfFuel)
              end
          | Exit s e => (w1, Exit s e)
          | Fault => (w1, Fault)
          | OutOfFuel => (w1, OutOfFuel)
          end
      | (w1, Exit s e) => (w1, Exit s e)
      | (w1, Fault) => (w1, Fault)
      | (w1, OutOfFuel) => (w1, OutOfFuel)
      end
  | Exit s e => (w, Exit s e)
  | Fault => (w, Fault)
  | OutOfFuel => (w, OutOfFuel)
  end.
End Calibrate.

(** ** main_snake.c: steering

    The loop of [main] reads one key per iteration into a [char] and
    updates [snake_dir] with four [if]s; nothing else writes it. *)

Module Snake.
Record vector_t : Type := { x : Z; y : Z }.

(** [char c = 0; c = getch();]: the [int] that [getch] returns is stored
    in a [char], which keeps its low eight bits (as a signed byte, -128 to
    127; the letters tested are below 128, so an unsigned [char] gives the
    same tests). *)
Definition char_of_int (key : Z) : Z := (key + 128) mod 256 - 128.

(** The four tests on [c], in the order of the source; ['W'] is 87, ['A']
    65, ['S'] 83 and ['D'] 68.  [key] is what [getch] returned. *)
Definition steer (key : Z) (snake_dir : vector_t) : vector_t :=
  let c := char_of_int key in
  let d1 := if c =? 87 then {| x := 0; y := -1 |} else snake_dir in
  let d2 := if c =? 65 then {| x := -1; y := 0 |} else d1 in
  let d3 := if c =? 83 then {| x := 0; y := 1 |} else d2 in
  if c =? 68 then {| x := 1; y := 0 |} else d3.

(** [snake_dir] after the keys read so far, from its initial value. *)
Definition steer_all (keys : list Z) (snake_dir : vector_t) : vector_t :=
  foldl (λ d c, steer c d) snake_dir keys.

Definition initial_dir : vector_t := {| x := -1; y := 0 |}.
End Snake.

(** * Specification vocabulary *)

(** What a call on [left..right] changes of the buffer [a0]: nothing
    outside [left..right], and inside only the order. *)
Definition reorders (a0 : list Z) (left right : Z) (a : list Z) : Prop :=
  length a = length a0 ∧ a ≡ₚ a0 ∧
  ∀ k, 0 ≤ k → k < left ∨ right < k → sel a k = sel a0 k.

(** The invariant of the [while (i < j)] loop of [partition] at its test;
    the pivot is the byte that was at [left]. *)
Definition loop_inv (a0 : list Z) (left right : Z) (a : list Z) (i j : Z) : Prop :=
  reorders a0 left right a ∧
  left ≤ i ≤ right + 1 ∧ left ≤ j ≤ right ∧
  sel a left = sel a0 left ∧
  (∀ k, left ≤ k < i → sel a k ≤ sel a0 left) ∧
  (∀ k, j < k ≤ right → sel a0 left < sel a k) ∧
  (i < j → sel a i ≤ sel a0 left) ∧
  (j ≤ i → sel a j ≤ sel a0 left).

(** What [partition] establishes: [j] is where the pivot ends up. *)
Definition partitioned (a0 : list Z) (left right : Z) (a : list Z) (j : Z) : Prop :=
  reorders a0 left right a ∧ left ≤ j ≤ right ∧ sel a j = sel a0 left ∧
  (∀ k, left ≤ k < j → sel a k ≤ sel a j) ∧
  (∀ k, j < k ≤ right → sel a j < sel a k).

(** The bytes at positions [l..r]. *)
Definition segment (a : list Z) (l r : Z) : list Z :=
  take (Z.to_nat (r - l + 1)) (drop (Z.to_nat l) a).

(** Positions [l..r] hold their bytes in ascending order. *)
Definition ascending (a : list Z) (l r : Z) : Prop :=
  ∀ p q, l ≤ p → p ≤ q → q ≤ r → sel a p ≤ sel a q.

(** A container's contents in ascending sorted order. *)
Definition in_order (l : list Z) : list Z := merge_sort Z.le l.

(** The offset of channel [w] of pixel [(x, y)] in a frame's bytes. *)
Definition byte_addr (frame : IplImage) (x y w : Z) : Z :=
  y * widthStep frame + x * nChannels frame + w.

(** Channel [w] of pixel [(x, y)] exists in the frame. *)
Definition in_frame (frame : IplImage) (x y w : Z) : Prop :=
  0 ≤ x < width frame ∧ 0 ≤ y < height frame ∧ 0 ≤ w < nChannels frame.

(** A frame whose rows fit in the stride, whose rows fit in the storage,
    and whose storage holds bytes. *)
Definition well_formed (frame : IplImage) : Prop :=
  0 ≤ nChannels frame ∧
  width frame * nChannels frame ≤ widthStep frame ∧
  height frame * widthStep frame ≤ Z.of_nat (length (imageData frame)) ∧
  Forall (λ b, 0 ≤ b < 256) (imageData frame).

(** Channel [(x, y, w)] comes before [(X, Y, W)] in the order the loops of
    [overlay_frame] visit them. *)
Definition before (x y w X Y W : Z) : Prop :=
  y < Y ∨ (y = Y ∧ (x < X ∨ (x = X ∧ w < W))).

(** The bytes [d] of a frame whose overlay has reached [(X, Y, W)]: the
    channels visited outside the box hold a quarter of the original byte,
    the others the original byte. *)
Definition overlaid (frame : IplImage) (reg_x reg_y reg_height reg_width : Z)
    (X Y W : Z) (d : list Z) : Prop :=
  length d = length (imageData frame) ∧
  ∀ x y w, in_frame frame x y w →
    sel d (byte_addr frame x y w) =
      if bool_decide (before x y w X Y W)
         && negb (in_box x y reg_x reg_y reg_width reg_height)
      then sel (imageData frame) (byte_addr frame x y w) / 4
      else sel (imageData frame) (byte_addr frame x y w).

(** The window buffer keeps its length and the frame its bytes while the
    gathering runs. *)
Definition gathering (s0 s : blur_state) : Prop :=
  img s = img s0 ∧ length (buf s) = length (buf s0).

(** The sampling loops of [final_calibration] about to read pixel
    [(x, y)] of a region whose three channels hold [v] everywhere: the
    samples taken so far are all [v]. *)
Definition sampled (reg_x reg_y reg_height reg_width v : Z) (x y : Z)
    (st : sample_state) : Prop :=
  idx st = (y - (reg_y - reg_height)) * (2 * reg_width) + (x - (reg_x - reg_width)) ∧
  Z.of_nat (length (h_arr st)) = 2 * reg_height * (2 * reg_width) ∧
  Z.of_nat (length (s_arr st)) = 2 * reg_height * (2 * reg_width) ∧
  Z.of_nat (length (v_arr st)) = 2 * reg_height * (2 * reg_width) ∧
  ∀ k, 0 ≤ k < idx st →
    sel (h_arr st) k = v ∧ sel (s_arr st) k = v ∧ sel (v_arr st) k = v.

(** The bytes for which the double product [u * 1.4] falls just below the
    integer 7u/5, so that its integer part is one less. *)
Definition rounds_below (u : Z) : bool :=
  bool_decide (u ∈ [45; 85; 90; 165; 170; 175; 180]).

(** The position in the sample containers of pixel [(x, y)] of the
    region: rows of [2 * reg_width] samples, top row first. *)
Definition sample_index (reg_x reg_y reg_height reg_width x y : Z) : Z :=
  (y - (reg_y - reg_height)) * (2 * reg_width) + (x - (reg_x - reg_width)).

(** Pixel [(x, y)] is one the sampling loops visit. *)
Definition in_region (reg_x reg_y reg_height reg_width x y : Z) : Prop :=
  reg_x - reg_width ≤ x < reg_x + reg_width ∧
  reg_y - reg_height ≤ y < reg_y + reg_height.

(** The sampling loops about to read pixel [(X, Y)]: the containers have
    their full size, and the pixels visited so far sit at their positions. *)
Definition gathered (frame : IplImage) (reg_x reg_y reg_height reg_width : Z)
    (X Y : Z) (st : sample_state) : Prop :=
  idx st = sample_index reg_x reg_y reg_height reg_width X Y ∧
  Z.of_nat (length (h_arr st)) = 2 * reg_height * (2 * reg_width) ∧
  Z.of_nat (length (s_arr st)) = 2 * reg_height * (2 * reg_width) ∧
  Z.of_nat (length (v_arr st)) = 2 * reg_height * (2 * reg_width) ∧
  ∀ x y, in_region reg_x reg_y reg_height reg_width x y →
    sample_index reg_x reg_y reg_height reg_width x y < idx st →
    sel (h_arr st) (sample_index reg_x reg_y reg_height reg_width x y)
      = sel (imageData frame) (byte_addr frame x y 0) ∧
    sel (s_arr st) (sample_index reg_x reg_y reg_height reg_width x y)
      = sel (imageData frame) (byte_addr frame x y 1) ∧
    sel (v_arr st) (sample_index reg_x reg_y reg_height reg_width x y)
      = sel (imageData frame) (byte_addr frame x y 2).

(** The three containers hold bytes. *)
Definition byte_samples (st : sample_state) : Prop :=
  Forall (λ b, 0 ≤ b < 256) (h_arr st) ∧
  Forall (λ b, 0 ≤ b < 256) (s_arr st) ∧
  Forall (λ b, 0 ≤ b < 256) (v_arr st).

(** A capture result the loop of [calibrate] can overlay: no frame, or a
    well-formed one. *)
Definition usable (f : option IplImage) : Prop :=
  match f with
  | Some frame => well_formed frame
  | None => True
  end.

(** * Properties *)

(** ** Buffers *)

Section Buffers.
Implicit Types (a : list Z) (i j k v : Z).

Lemma load_Done a i :
  0 ≤ i < Z.of_nat (length a) → load a i = Done (sel a i).
Proof.
  intros [Hlo Hhi]. unfold load, sel.
  destruct (Z.leb_spec 0 i); [|lia].
  destruct (lookup_lt_is_Some_2 a (Z.to_nat i)) as [v ->]; [lia|done].
Qed.

Lemma load_inv a i v :
  load a i = Done v → 0 ≤ i < Z.of_nat (length a) ∧ sel a i = v.
Proof.
  unfold load, sel. destruct (Z.leb_spec 0 i); [|done].
  destruct (a !! Z.to_nat i) eqn:E; [|done].
  intros [= ->]. apply lookup_lt_Some in E. split; [lia|done].
Qed.

Lemma store_Done a i v :
  0 ≤ i < Z.of_nat (length a) → store a i v = Done (<[Z.to_nat i := v]> a).
Proof.
  intros [Hlo Hhi]. unfold store.
  destruct (Z.leb_spec 0 i); [|lia]. destruct (Z.ltb_spec i (Z.of_nat (length a))); [done|lia].
Qed.

Lemma store_Fault a i v :
  Z.of_nat (length a) ≤ i → store a i v = Fault.
Proof.
  intros Hge. unfold store.
  destruct (Z.ltb_spec i (Z.of_nat (length a))); [lia|]. by rewrite andb_false_r.
Qed.

Lemma store_inv a i v a' :
  store a i v = Done a' →
  0 ≤ i < Z.of_nat (length a) ∧ a' = <[Z.to_nat i := v]> a.
Proof.
  unfold store. destruct (Z.leb_spec 0 i), (Z.ltb_spec i (Z.of_nat (length a)));
    simpl; try done. intros [= <-]. split; [lia|done].
Qed.

Lemma sel_insert_eq a i v :
  0 ≤ i < Z.of_nat (length a) → sel (<[Z.to_nat i := v]> a) i = v.
Proof. intros H. unfold sel. rewrite list_lookup_insert_eq; [done|lia]. Qed.

Lemma sel_insert_ne a i k v :
  0 ≤ i → 0 ≤ k → i ≠ k → sel (<[Z.to_nat i := v]> a) k = sel a k.
Proof. intros Hi Hk Hne. unfold sel. rewrite list_lookup_insert_ne; [done|lia]. Qed.

Lemma sel_lookup a k v : 0 ≤ k → a !! Z.to_nat k = Some v → sel a k = v.
Proof. intros _ E. unfold sel. by rewrite E. Qed.

Lemma lookup_sel a k :
  0 ≤ k < Z.of_nat (length a) → a !! Z.to_nat k = Some (sel a k).
Proof.
  intros H. unfold sel.
  destruct (lookup_lt_is_Some_2 a (Z.to_nat k)) as [v ->]; [lia|done].
Qed.

(** Two buffers of one length that agree at every index are equal. *)
Lemma sel_ext a a' :
  length a = length a' →
  (∀ k, 0 ≤ k < Z.of_nat (length a) → sel a k = sel a' k) → a = a'.
Proof.
  intros Hlen Hsel. apply list_eq_same_length with (length a); [done..|].
  intros n x y Hn Hx Hy.
  specialize (Hsel (Z.of_nat n) ltac:(lia)). unfold sel in Hsel.
  rewrite Nat2Z.id, Hx, Hy in Hsel. done.
Qed.

Lemma swap_insert_perm {A} (l : list A) (n m : nat) (x y : A) :
  l !! n = Some x → l !! m = Some y → <[m := x]> (<[n := y]> l) ≡ₚ l.
Proof.
  revert n m. induction l as [|h t IH]; intros n m Hn Hm; [done|].
  destruct n as [|n], m as [|m]; simpl in *.
  - by simplify_eq.
  - simplify_eq. clear IH. revert m Hm. induction t as [|h t IH]; intros m Hm; [done|].
    destruct m as [|m]; simpl in *; simplify_eq.
    + apply perm_swap.
    + etrans; [apply perm_swap|]. etrans; [|apply perm_swap].
      apply perm_skip. by apply IH.
  - simplify_eq. clear IH. revert n Hn. induction t as [|h t IH]; intros n Hn; [done|].
    destruct n as [|n]; simpl in *; simplify_eq.
    + apply perm_swap.
    + etrans; [apply perm_swap|]. etrans; [|apply perm_swap].
      apply perm_skip. by apply IH.
  - apply perm_skip. by apply IH.
Qed.

Lemma swap_spec a i j :
  0 ≤ i < Z.of_nat (length a) → 0 ≤ j < Z.of_nat (length a) →
  ∃ a', swap a i j = Done a' ∧ a' ≡ₚ a ∧ length a' = length a ∧
        sel a' i = sel a j ∧ sel a' j = sel a i ∧
        ∀ k, 0 ≤ k → k ≠ i → k ≠ j → sel a' k = sel a k.
Proof.
  intros Hi Hj. unfold swap.
  rewrite (load_Done a i), (load_Done a j) by done. simpl.
  rewrite store_Done by done. simpl.
  rewrite store_Done by (rewrite length_insert; done).
  eexists; split; [done|]. split_and!.
  - apply swap_insert_perm; by apply lookup_sel.
  - by rewrite !length_insert.
  - destruct (decide (i = j)) as [->|Hne].
    + rewrite sel_insert_eq; [done|by rewrite length_insert].
    + rewrite sel_insert_ne by lia. by rewrite sel_insert_eq.
  - rewrite sel_insert_eq; [done|by rewrite length_insert].
  - intros k Hk Hki Hkj. rewrite !sel_insert_ne by lia. done.
Qed.
End Buffers.

(** ** partition *)

Section Scans.
Variables (a : list Z) (right pivot : Z).

Lemma scan_up_spec fuel i :
  0 ≤ i ≤ right + 1 → right < Z.of_nat (length a) →
  right + 2 - i ≤ Z.of_nat fuel →
  ∃ i', scan_up fuel a right pivot i = Done i' ∧ i ≤ i' ≤ right + 1 ∧
        (∀ k, i ≤ k < i' → sel a k ≤ pivot) ∧
        (i' ≤ right → pivot < sel a i').
Proof.
  revert i. induction fuel as [|fuel IH]; intros i Hi Hr Hfuel; [lia|].
  simpl. destruct (Z.leb_spec i right) as [Hle|Hgt].
  - rewrite load_Done by lia. simpl.
    destruct (Z.leb_spec (sel a i) pivot) as [Hv|Hv].
    + destruct (IH (i + 1)) as (i' & -> & Hi' & Hbelow & Hstop); [lia..|].
      exists i'. split_and!; [done|lia|lia| |done].
      intros k Hk. destruct (decide (k = i)) as [->|]; [done|]. apply Hbelow. lia.
    + exists i. split_and!; [done|lia|lia| |done]. intros k Hk. lia.
  - exists i. split_and!; [done|lia|lia| |lia]. intros k Hk. lia.
Qed.

(** The backward scan has no bound of its own: it stops because some
    position [s] at or below [j] holds a byte that is not above the pivot. *)
Lemma scan_down_spec fuel j s :
  0 ≤ s ≤ j → j < Z.of_nat (length a) → sel a s ≤ pivot →
  j - s + 1 ≤ Z.of_nat fuel →
  ∃ j', scan_down fuel a pivot j = Done j' ∧ s ≤ j' ≤ j ∧
        (∀ k, j' < k ≤ j → pivot < sel a k) ∧ sel a j' ≤ pivot.
Proof.
  revert j. induction fuel as [|fuel IH]; intros j Hs Hj Hsent Hfuel; [lia|].
  simpl. rewrite load_Done by lia. simpl. rewrite Z.gtb_ltb.
  destruct (Z.ltb_spec pivot (sel a j)) as [Hv|Hv].
  - assert (s ≠ j) by (intros ->; lia).
    destruct (IH (j - 1)) as (j' & -> & Hj' & Habove & Hstop); [lia..|done|lia|].
    exists j'. split_and!; [done|lia|lia| |done].
    intros k Hk. destruct (decide (k = j)) as [->|]; [done|]. apply Habove. lia.
  - exists j. split_and!; [done|lia|lia| |done]. intros k Hk. lia.
Qed.
End Scans.

Section Partition.
Variables (a0 : list Z) (left right : Z).
Hypothesis Hrange : 0 ≤ left ∧ left ≤ right ∧ right < Z.of_nat (length a0).

Local Abbreviation pivot := (sel a0 left).
Local Abbreviation reorders := (reorders a0 left right).
Local Abbreviation loop_inv := (loop_inv a0 left right).
Local Abbreviation partitioned := (partitioned a0 left right).

Lemma loop_inv_init : loop_inv a0 left right.
Proof.
  unfold loop_inv, reorders.
  split_and!; try done; try lia; intros; try lia.
  replace right with left by lia. lia.
Qed.

Lemma partition_loop_spec fuel a i j :
  loop_inv a i j → right + 3 - i ≤ Z.of_nat fuel →
  ∃ a' i' j', partition_loop fuel a right pivot i j = Done (a', j') ∧
              loop_inv a' i' j' ∧ j' ≤ i'.
Proof.
  revert a i j. induction fuel as [|fuel IH]; intros a i j Hinv Hfuel.
  { destruct Hinv as (_ & ? & _). lia. }
  simpl. destruct (Z.ltb_spec i j) as [Hij|Hij]; [|by exists a, i, j].
  destruct Hinv as ((Hlen & Hperm & Hout) & Hi & Hj & Hpiv & Hlow & Hhigh & Hati & Hatj).
  destruct (scan_up_spec a right pivot fuel i)
    as (i' & -> & Hi' & Hup & Hupstop); [lia..|].
  assert (i < i') as Hadv.
  { destruct (decide (i' = i)) as [->|]; [|lia].
    specialize (Hupstop ltac:(lia)). specialize (Hati Hij). lia. }
  simpl.
  destruct (scan_down_spec a pivot fuel j (Z.min (i' - 1) j))
    as (j' & -> & Hj' & Hdown & Hdownstop); [lia..| |lia|].
  { destruct (Z.min_spec (i' - 1) j) as [[? ->]|[? ->]]; apply Hup; lia. }
  simpl.
  assert (∀ k, left ≤ k < i' → sel a k ≤ pivot) as Hlow'.
  { intros k Hk. destruct (decide (k < i)); [apply Hlow|apply Hup]; lia. }
  assert (∀ k, j' < k ≤ right → pivot < sel a k) as Hhigh'.
  { intros k Hk. destruct (decide (k ≤ j)); [apply Hdown|apply Hhigh]; lia. }
  destruct (Z.ltb_spec i' j') as [Hlt|Hge].
  - destruct (swap_spec a i' j') as (a' & -> & Hp' & Hl' & Hsi & Hsj & Hother); [lia..|].
    simpl. apply IH; [|lia].
    split_and!; try lia.
    + split_and!; [congruence|by etrans|].
      intros k Hk Hko. rewrite Hother by lia. by apply Hout.
    + rewrite Hother by lia. done.
    + intros k Hk. rewrite Hother by lia. by apply Hlow'.
    + intros k Hk. rewrite Hother by lia. by apply Hhigh'.
  - simpl. apply IH; [|lia].
    split_and!; try done; try lia.
Qed.

Lemma partition_spec fuel :
  right + 3 - left ≤ Z.of_nat fuel →
  ∃ a' j, partition fuel a0 left right = Done (a', j) ∧ partitioned a' j.
Proof.
  intros Hfuel. unfold partition. rewrite load_Done by lia. simpl.
  destruct (partition_loop_spec fuel a0 left right loop_inv_init Hfuel)
    as (a & i & j & Hrun & Hinv & Hji).
  rewrite Hrun. simpl.
  destruct Hinv as ((Hlen & Hperm & Hout) & Hi & Hj & Hpiv & Hlow & Hhigh & _ & Hatj).
  destruct (swap_spec a left j) as (a' & -> & Hp' & Hl' & Hsl & Hsj & Hother); [lia..|].
  simpl. exists a', j. split; [done|].
  assert (sel a' j = pivot) as Hpj by congruence.
  split_and!; try lia; try done.
  - split_and!; [congruence|by etrans|].
    intros k Hk Hko. rewrite Hother by lia. by apply Hout.
  - intros k Hk. rewrite Hpj. destruct (decide (k = left)) as [->|].
    + rewrite Hsl. apply Hatj. lia.
    + rewrite Hother by lia. apply Hlow. lia.
  - intros k Hk. rewrite Hpj. rewrite Hother by lia. by apply Hhigh.
Qed.
End Partition.

(** ** quick_sort *)

Section Segments.
Implicit Types (a : list Z) (l r k : Z).

Lemma segment_split a l r :
  a = take (Z.to_nat l) a ++ segment a l r
      ++ drop (Z.to_nat l + Z.to_nat (r - l + 1)) a.
Proof.
  unfold segment. rewrite <- drop_drop, take_drop, take_drop. done.
Qed.

Lemma lookup_agree a a' k :
  length a = length a' → 0 ≤ k → sel a k = sel a' k →
  a !! Z.to_nat k = a' !! Z.to_nat k.
Proof.
  intros Hlen Hk Hsel. destruct (decide (k < Z.of_nat (length a))).
  - rewrite !lookup_sel by lia. by f_equal.
  - rewrite !lookup_ge_None_2 by lia. done.
Qed.

Lemma segment_perm a0 a l r :
  reorders a0 l r a → 0 ≤ l → segment a l r ≡ₚ segment a0 l r.
Proof.
  intros (Hlen & Hperm & Hout) Hl.
  rewrite (segment_split a l r), (segment_split a0 l r) in Hperm at 1.
  assert (take (Z.to_nat l) a = take (Z.to_nat l) a0) as Hpre.
  { apply list_eq. intros n. destruct (decide (n < Z.to_nat l)%nat).
    - rewrite !lookup_take_lt by done.
      rewrite <- (Nat2Z.id n). apply lookup_agree; [done|lia|].
      apply Hout; lia.
    - rewrite !lookup_take_ge by lia. done. }
  assert (drop (Z.to_nat l + Z.to_nat (r - l + 1)) a
          = drop (Z.to_nat l + Z.to_nat (r - l + 1)) a0) as Hpost.
  { apply list_eq. intros n. rewrite !lookup_drop.
    rewrite <- (Nat2Z.id (_ + n)). apply lookup_agree; [done|lia|].
    apply Hout; lia. }
  rewrite Hpre, Hpost in Hperm.
  apply Permutation_app_inv_l in Hperm. by apply Permutation_app_inv_r in Hperm.
Qed.

Lemma segment_lookup a l r n :
  0 ≤ l → (n < Z.to_nat (r - l + 1))%nat →
  segment a l r !! n = a !! Z.to_nat (l + Z.of_nat n).
Proof.
  intros Hl Hn. unfold segment. rewrite lookup_take_lt by done.
  rewrite lookup_drop. f_equal. lia.
Qed.

Lemma sel_in_segment a l r k :
  0 ≤ l → r < Z.of_nat (length a) → l ≤ k ≤ r → sel a k ∈ segment a l r.
Proof.
  intros Hl Hr Hk. apply list_elem_of_lookup. exists (Z.to_nat (k - l)).
  rewrite segment_lookup by lia.
  replace (l + Z.of_nat (Z.to_nat (k - l))) with k by lia.
  apply lookup_sel. lia.
Qed.

Lemma segment_elem a l r x :
  0 ≤ l → x ∈ segment a l r → ∃ k, l ≤ k ≤ r ∧ sel a k = x.
Proof.
  intros Hl [n Hn]%list_elem_of_lookup.
  assert (n < Z.to_nat (r - l + 1))%nat as Hlt.
  { apply lookup_lt_Some in Hn. unfold segment in Hn.
    rewrite length_take in Hn. lia. }
  rewrite segment_lookup in Hn by done.
  exists (l + Z.of_nat n). split; [lia|]. by apply sel_lookup; [lia|].
Qed.

(** A byte found in [l..r] after a reordering of [l..r] was in [l..r]
    before it. *)
Lemma reorders_elem a0 a l r k :
  reorders a0 l r a → 0 ≤ l → r < Z.of_nat (length a0) → l ≤ k ≤ r →
  ∃ k', l ≤ k' ≤ r ∧ sel a k = sel a0 k'.
Proof.
  intros Hre Hl Hr Hk.
  assert (sel a k ∈ segment a0 l r) as Hin.
  { rewrite <- (segment_perm a0 a l r Hre Hl).
    apply sel_in_segment; [done| |done]. destruct Hre as (-> & _). done. }
  apply segment_elem in Hin as (k' & Hk' & Heq); [|done]. by exists k'.
Qed.

Lemma reorders_refl a l r : reorders a l r a.
Proof. by split_and!. Qed.

Lemma reorders_trans a0 a1 a2 l r l' r' :
  reorders a0 l r a1 → reorders a1 l' r' a2 → l ≤ l' → r' ≤ r →
  reorders a0 l r a2.
Proof.
  intros (Hlen & Hperm & Hout) (Hlen' & Hperm' & Hout') Hl Hr.
  split_and!; [congruence|by etrans|].
  intros k Hk Hko. rewrite Hout' by lia. by apply Hout.
Qed.
End Segments.

Lemma quick_sort_spec fuel : ∀ a left right,
  (left < right → 0 ≤ left ∧ right < Z.of_nat (length a)) →
  1 ≤ Z.of_nat fuel → right - left + 4 ≤ Z.of_nat fuel →
  ∃ a', quick_sort fuel a left right = Done a' ∧
        reorders a left right a' ∧ ascending a' left right.
Proof.
  induction fuel as [|fuel IH]; intros a left right Hrange Hone Hfuel; [lia|].
  simpl. destruct (Z.ltb_spec left right) as [Hlt|Hge].
  2:{ exists a. split_and!; [done|apply reorders_refl|].
      intros p q ? ? ?. assert (p = q) as -> by lia. done. }
  destruct (Hrange Hlt) as [Hl Hr].
  destruct (partition_spec a left right ltac:(lia) fuel ltac:(lia))
    as (a1 & j & -> & Hre1 & Hj & Hpiv & Hlow & Hhigh).
  simpl.
  assert (length a1 = length a) as Hlen1 by apply Hre1.
  destruct (IH a1 left (j - 1)) as (a2 & -> & Hre2 & Hasc2); [lia..|].
  assert (length a2 = length a1) as Hlen2 by apply Hre2.
  simpl.
  destruct (IH a2 (j + 1) right) as (a3 & -> & Hre3 & Hasc3); [lia..|].
  exists a3. split; [done|]. split.
  { eapply reorders_trans; [|exact Hre3|lia..].
    eapply reorders_trans; [exact Hre1|exact Hre2|lia..]. }
  assert (∀ k, 0 ≤ k → k ≤ j → sel a3 k = sel a2 k) as H32.
  { intros k ? ?. apply Hre3; lia. }
  assert (∀ k, 0 ≤ k → j ≤ k → sel a2 k = sel a1 k) as H21.
  { intros k ? ?. apply Hre2; lia. }
  assert (∀ k, left ≤ k < j → sel a2 k ≤ sel a1 j) as Hlow2.
  { intros k Hk.
    destruct (reorders_elem a1 a2 left (j - 1) k Hre2) as (k' & Hk' & ->); [lia..|].
    apply Hlow. lia. }
  assert (∀ k, j < k ≤ right → sel a1 j < sel a3 k) as Hhigh3.
  { intros k Hk.
    destruct (reorders_elem a2 a3 (j + 1) right k Hre3) as (k' & Hk' & ->); [lia..|].
    rewrite H21 by lia. apply Hhigh. lia. }
  assert (sel a3 j = sel a1 j) as Hj3 by (rewrite H32, H21 by lia; done).
  intros p q Hp Hpq Hq.
  destruct (Z.lt_trichotomy p j) as [Hpj|[->|Hpj]],
           (Z.lt_trichotomy q j) as [Hqj|[->|Hqj]]; try lia.
  - rewrite !H32 by lia. apply Hasc2; lia.
  - rewrite Hj3, H32 by lia. apply Hlow2. lia.
  - rewrite H32 by lia. specialize (Hlow2 p ltac:(lia)). specialize (Hhigh3 q ltac:(lia)). lia.
  - specialize (Hhigh3 q ltac:(lia)). lia.
  - apply Hasc3; lia.
Qed.

(** ** The claims on the order-statistic filter *)

(** C3. For a range [left <= right] inside the buffer, [partition] returns
    an index [j] of the range; the buffer it leaves is a permutation of the
    one it got, the byte at [j] is at least every byte at [left..j-1] and at
    most every byte at [j+1..right].  Nothing is assumed of the contents, so
    buffers of equal bytes are covered. *)
Theorem partition_pivot_position (a : list Z) (left right : Z) (fuel : nat) :
  0 ≤ left → left ≤ right → right < Z.of_nat (length a) →
  right - left + 3 ≤ Z.of_nat fuel →
  ∃ a' j, partition fuel a left right = Done (a', j) ∧
          left ≤ j ≤ right ∧ a' ≡ₚ a ∧
          (∀ k, left ≤ k < j → sel a' k ≤ sel a' j) ∧
          (∀ k, j < k ≤ right → sel a' j ≤ sel a' k).
Proof.
  intros Hl Hlr Hr Hfuel.
  destruct (partition_spec a left right ltac:(lia) fuel ltac:(lia))
    as (a' & j & Hrun & (Hlen & Hperm & Hout) & Hj & Hpiv & Hlow & Hhigh).
  exists a', j. split_and!; [done|lia|lia|done|done|].
  intros k Hk. specialize (Hhigh k Hk). lia.
Qed.

Lemma partition_pivot_position_witness :
  ∃ a' j, partition 5 [7; 7; 7] 0 2 = Done (a', j) ∧
          0 ≤ j ≤ 2 ∧ a' ≡ₚ [7; 7; 7] ∧
          (∀ k, 0 ≤ k < j → sel a' k ≤ sel a' j) ∧
          (∀ k, j < k ≤ 2 → sel a' j ≤ sel a' k).
Proof. apply (partition_pivot_position [7; 7; 7] 0 2 5); simpl; lia. Defined.

(** C4. [partition] and [quick_sort] terminate on every range inside the
    buffer, whatever the bytes: with [right - left + 4] units of fuel or
    more, neither the two scans, nor the [while] loop, nor the recursion runs
    out of fuel. *)
Theorem partition_quick_sort_terminate (a : list Z) (left right : Z) (fuel : nat) :
  0 ≤ left → left ≤ right → right < Z.of_nat (length a) →
  right - left + 4 ≤ Z.of_nat fuel →
  (∃ a' j, partition fuel a left right = Done (a', j)) ∧
  (∃ a', quick_sort fuel a left right = Done a').
Proof.
  intros Hl Hlr Hr Hfuel. split.
  - destruct (partition_spec a left right ltac:(lia) fuel ltac:(lia))
      as (a' & j & Hrun & _). by exists a', j.
  - destruct (quick_sort_spec fuel a left right) as (a' & Hrun & _); [lia..|].
    by exists a'.
Qed.

Lemma partition_quick_sort_terminate_witness :
  (∃ a' j, partition 7 [9; 9; 9; 9] 0 3 = Done (a', j)) ∧
  (∃ a', quick_sort 7 [9; 9; 9; 9] 0 3 = Done a').
Proof. apply (partition_quick_sort_terminate [9; 9; 9; 9] 0 3 7); simpl; lia. Defined.

(** From positions in ascending order to a sorted list. *)
Lemma ascending_Sorted (a : list Z) :
  ascending a 0 (Z.of_nat (length a) - 1) → Sorted Z.le a.
Proof.
  induction a as [|x t IH]; intros Hasc; [constructor|].
  assert (∀ k, 0 ≤ k → sel (x :: t) (k + 1) = sel t k) as Hshift.
  { intros k Hk. unfold sel. replace (Z.to_nat (k + 1)) with (S (Z.to_nat k)) by lia. done. }
  constructor.
  - apply IH. intros p q Hp Hpq Hq. rewrite <- !Hshift by lia.
    apply Hasc; simpl length; lia.
  - destruct t as [|y t]; constructor.
    apply (Hasc 0 1); simpl length; lia.
Qed.

(** [quick_sort] over the whole container leaves it in ascending order. *)
Lemma quick_sort_in_order (l : list Z) (fuel : nat) :
  Z.of_nat (length l) + 4 ≤ Z.of_nat fuel →
  quick_sort fuel l 0 (Z.of_nat (length l) - 1) = Done (in_order l).
Proof.
  intros Hfuel.
  destruct (quick_sort_spec fuel l 0 (Z.of_nat (length l) - 1))
    as (a' & -> & (Hlen & Hperm & _) & Hasc); [lia..|].
  f_equal. apply (Sorted_unique Z.le).
  - apply ascending_Sorted. by rewrite Hlen.
  - apply Sorted_merge_sort; apply _.
  - unfold in_order. by rewrite merge_sort_Permutation.
Qed.

Lemma in_order_length (l : list Z) : length (in_order l) = length l.
Proof. unfold in_order. by rewrite merge_sort_Permutation. Qed.

Lemma in_order_perm (l l' : list Z) : l' ≡ₚ l → in_order l' = in_order l.
Proof.
  intros Hperm. apply (Sorted_unique Z.le).
  - apply Sorted_merge_sort; apply _.
  - apply Sorted_merge_sort; apply _.
  - unfold in_order. by rewrite !merge_sort_Permutation.
Qed.

(** A query that sorts the container and reads index [k] of it. *)
Lemma sorted_index_query (l : list Z) (fuel : nat) (k : Z) :
  Z.of_nat (length l) + 4 ≤ Z.of_nat fuel → 0 ≤ k < Z.of_nat (length l) →
  (a ← quick_sort fuel l 0 (Z.of_nat (length l) - 1); v ← load a k; Done (a, v))
  = Done (in_order l, sel (in_order l) k).
Proof.
  intros Hfuel Hk. rewrite quick_sort_in_order by done. simpl.
  rewrite load_Done by (rewrite in_order_length; done). done.
Qed.

(** C1. On a non-empty container of length N, [lower_quartile], [median]
    and [upper_quartile] return the bytes at indices (N-1)/4, (N-1)/2 and
    3(N-1)/4 (rounded down) of the contents in ascending order, and leave
    the container sorted; a permutation of the container gives the same
    results; a container of one byte gives that byte; and
    [40, 10, 30, 20, 50] gives 20, 30 and 40. *)
Theorem quartiles_index_sorted (l l' : list Z) (fuel : nat) :
  l ≠ [] → l' ≡ₚ l → Z.of_nat (length l) + 4 ≤ Z.of_nat fuel →
  let N := Z.of_nat (length l) in
  let s := in_order l in
  (lower_quartile fuel l N = Done (s, sel s ((N - 1) / 4)) ∧
   median fuel l N = Done (s, sel s ((N - 1) / 2)) ∧
   upper_quartile fuel l N = Done (s, sel s (3 * (N - 1) / 4))) ∧
  (lower_quartile fuel l' N = lower_quartile fuel l N ∧
   median fuel l' N = median fuel l N ∧
   upper_quartile fuel l' N = upper_quartile fuel l N) ∧
  (∀ (x : Z) (n : nat),
     lower_quartile (5 + n) [x] 1 = Done ([x], x) ∧
     median (5 + n) [x] 1 = Done ([x], x) ∧
     upper_quartile (5 + n) [x] 1 = Done ([x], x)) ∧
  (∀ n : nat,
     lower_quartile (9 + n) [40; 10; 30; 20; 50] 5 = Done ([10; 20; 30; 40; 50], 20) ∧
     median (9 + n) [40; 10; 30; 20; 50] 5 = Done ([10; 20; 30; 40; 50], 30) ∧
     upper_quartile (9 + n) [40; 10; 30; 20; 50] 5 = Done ([10; 20; 30; 40; 50], 40)).
Proof.
  intros Hne Hperm Hfuel N s. subst N s.
  assert (∀ (m : list Z) (f : nat) (M : Z), m ≠ [] →
            Z.of_nat (length m) + 4 ≤ Z.of_nat f → M = Z.of_nat (length m) →
            lower_quartile f m M = Done (in_order m, sel (in_order m) ((M - 1) / 4)) ∧
            median f m M = Done (in_order m, sel (in_order m) ((M - 1) / 2)) ∧
            upper_quartile f m M = Done (in_order m, sel (in_order m) (3 * (M - 1) / 4)))
    as Hgen.
  { intros m f M Hm Hf ->.
    assert (0 < Z.of_nat (length m)) by (destruct m; [done|simpl length; lia]).
    unfold lower_quartile, median, upper_quartile.
    rewrite !Z.quot_div_nonneg by lia.
    split_and!; apply sorted_index_query; try done.
    - split; [apply Z.div_pos; lia|]. apply Z.div_lt_upper_bound; lia.
    - split; [apply Z.div_pos; lia|]. apply Z.div_lt_upper_bound; lia.
    - split; [apply Z.div_pos; lia|]. apply Z.div_lt_upper_bound; lia. }
  split; [by apply Hgen|]. split.
  { assert (length l' = length l) as Hlen by (by rewrite Hperm).
    assert (l' ≠ []) as Hne' by (intros ->; destruct l; done).
    destruct (Hgen l fuel _ Hne Hfuel eq_refl) as (-> & -> & ->).
    destruct (Hgen l' fuel (Z.of_nat (length l)) Hne') as (-> & -> & ->);
      [by rewrite Hlen|by rewrite Hlen|].
    rewrite (in_order_perm l l' Hperm). done. }
  split.
  - intros x n.
    destruct (Hgen [x] (5 + n)%nat 1) as (-> & -> & ->); [done|simpl length; lia|done|].
    by vm_compute.
  - intros n.
    destruct (Hgen [40; 10; 30; 20; 50] (9 + n)%nat 5) as (-> & -> & ->);
      [done|simpl length; lia|done|].
    by vm_compute.
Qed.

Lemma quartiles_index_sorted_witness :
  lower_quartile 7 [3; 1; 2] 3 = Done ([1; 2; 3], 1) ∧
  median 7 [3; 1; 2] 3 = Done ([1; 2; 3], 2) ∧
  upper_quartile 7 [3; 1; 2] 3 = Done ([1; 2; 3], 2).
Proof.
  assert ([3; 1; 2] ≠ @nil Z) as Hne by discriminate.
  assert ([1; 3; 2] ≡ₚ [3; 1; 2]) as Hperm by apply perm_swap.
  assert (Z.of_nat (length [3; 1; 2]) + 4 ≤ Z.of_nat 7) as Hfuel by (simpl; lia).
  exact (proj1 (quartiles_index_sorted [3; 1; 2] [1; 3; 2] 7 Hne Hperm Hfuel)).
Defined.

(** ** Loops *)

Section Loops.
Context {St : Type}.
Implicit Types (body : Z → St → run St) (s : St).

Lemma for_loop_inv (I : Z → St → Prop) body n lo s :
  I lo s →
  (∀ i s, lo ≤ i < lo + Z.of_nat n → I i s →
     ∃ s', body i s = (s', Done ()) ∧ I (i + 1) s') →
  ∃ s', for_loop n lo body s = (s', Done ()) ∧ I (lo + Z.of_nat n) s'.
Proof.
  revert lo s. induction n as [|n IH]; intros lo s Hs Hstep.
  - exists s. split; [done|]. by rewrite Z.add_0_r.
  - simpl. destruct (Hstep lo s) as (s1 & -> & Hs1); [lia|done|].
    destruct (IH (lo + 1) s1) as (s2 & -> & Hs2); [done| |].
    + intros i s' Hi. apply Hstep. lia.
    + exists s2. split; [done|]. by replace (lo + Z.of_nat (S n)) with (lo + 1 + Z.of_nat n) by lia.
Qed.

(** The rule of a counted loop: an invariant that holds at [lo] and is
    kept by every iteration holds at [hi] when the loop is done. *)
Lemma for_range_inv (I : Z → St → Prop) body lo hi s :
  lo ≤ hi → I lo s →
  (∀ i s, lo ≤ i < hi → I i s → ∃ s', body i s = (s', Done ()) ∧ I (i + 1) s') →
  ∃ s', for_range lo hi body s = (s', Done ()) ∧ I hi s'.
Proof.
  intros Hle Hs Hstep. unfold for_range.
  destruct (for_loop_inv I body (Z.to_nat (hi - lo)) lo s Hs) as (s' & Hrun & Hs').
  - intros i s0 Hi. apply Hstep. lia.
  - exists s'. split; [done|]. by replace hi with (lo + Z.of_nat (Z.to_nat (hi - lo))) by lia.
Qed.

Lemma for_range_empty body lo hi s :
  hi ≤ lo → for_range lo hi body s = (s, Done ()).
Proof. intros Hle. unfold for_range. by replace (Z.to_nat (hi - lo)) with 0%nat by lia. Qed.

(** A loop whose iterations all leave the state alone leaves it alone. *)
Lemma for_range_skip body lo hi s :
  (∀ i, lo ≤ i < hi → body i s = (s, Done ())) →
  for_range lo hi body s = (s, Done ()).
Proof.
  intros Hskip. destruct (decide (lo ≤ hi)); [|apply for_range_empty; lia].
  destruct (for_range_inv (λ _ s', s' = s) body lo hi s) as (s' & -> & ->); try done.
  intros i ? Hi ->. exists s. split; [by apply Hskip|done].
Qed.

(** A loop whose iterations complete or fault completes or faults; [J]
    is what is known of the state a fault leaves. *)
Lemma for_loop_cases (I : Z → St → Prop) (J : St → Prop) body n lo s :
  I lo s →
  (∀ i s, lo ≤ i < lo + Z.of_nat n → I i s →
     (∃ s', body i s = (s', Done ()) ∧ I (i + 1) s')
     ∨ (∃ s', body i s = (s', Fault) ∧ J s')) →
  (∃ s', for_loop n lo body s = (s', Done ()) ∧ I (lo + Z.of_nat n) s')
  ∨ (∃ s', for_loop n lo body s = (s', Fault) ∧ J s').
Proof.
  revert lo s. induction n as [|n IH]; intros lo s Hs Hstep.
  - left. exists s. split; [done|]. by rewrite Z.add_0_r.
  - simpl. destruct (Hstep lo s) as [(s1 & -> & Hs1)|(s1 & -> & Hs1)]; [lia|done| |].
    + destruct (IH (lo + 1) s1) as [(s2 & -> & Hs2)|(s2 & -> & Hs2)]; [done| | |].
      * intros i s' Hi. apply Hstep. lia.
      * left. exists s2. split; [done|].
        by replace (lo + Z.of_nat (S n)) with (lo + 1 + Z.of_nat n) by lia.
      * right. by exists s2.
    + right. by exists s1.
Qed.

Lemma for_range_cases (I : Z → St → Prop) (J : St → Prop) body lo hi s :
  lo ≤ hi → I lo s →
  (∀ i s, lo ≤ i < hi → I i s →
     (∃ s', body i s = (s', Done ()) ∧ I (i + 1) s')
     ∨ (∃ s', body i s = (s', Fault) ∧ J s')) →
  (∃ s', for_range lo hi body s = (s', Done ()) ∧ I hi s')
  ∨ (∃ s', for_range lo hi body s = (s', Fault) ∧ J s').
Proof.
  intros Hle Hs Hstep. unfold for_range.
  destruct (for_loop_cases I J body (Z.to_nat (hi - lo)) lo s Hs)
    as [(s' & Hrun & Hs')|Hf]; [|left|by right].
  - intros i s0 Hi. apply Hstep. lia.
  - exists s'. split; [done|].
    by replace hi with (lo + Z.of_nat (Z.to_nat (hi - lo))) by lia.
Qed.

(** A loop stops at the first iteration that faults. *)
Lemma for_loop_stops (I : Z → St → Prop) (J : St → Prop) body n lo s (k : Z) :
  lo ≤ k < lo + Z.of_nat n → I lo s →
  (∀ i s, lo ≤ i < k → I i s →
     (∃ s', body i s = (s', Done ()) ∧ I (i + 1) s')
     ∨ (∃ s', body i s = (s', Fault) ∧ J s')) →
  (∀ s, I k s → ∃ s', body k s = (s', Fault) ∧ J s') →
  ∃ s', for_loop n lo body s = (s', Fault) ∧ J s'.
Proof.
  revert lo s. induction n as [|n IH]; intros lo s Hk Hs Hstep Hfault; [lia|].
  simpl. destruct (decide (lo = k)) as [->|Hne].
  - destruct (Hfault s Hs) as (s1 & -> & Hs1). by exists s1.
  - destruct (Hstep lo s) as [(s1 & -> & Hs1)|(s1 & -> & Hs1)]; [lia|done| |].
    + apply IH; [lia|done| |done]. intros i s' Hi. apply Hstep. lia.
    + by exists s1.
Qed.

Lemma for_range_stops (I : Z → St → Prop) (J : St → Prop) body lo hi s (k : Z) :
  lo ≤ k < hi → I lo s →
  (∀ i s, lo ≤ i < k → I i s →
     (∃ s', body i s = (s', Done ()) ∧ I (i + 1) s')
     ∨ (∃ s', body i s = (s', Fault) ∧ J s')) →
  (∀ s, I k s → ∃ s', body k s = (s', Fault) ∧ J s') →
  ∃ s', for_range lo hi body s = (s', Fault) ∧ J s'.
Proof.
  intros Hk. unfold for_range. apply for_loop_stops. lia.
Qed.
End Loops.

(** ** overlay_frame *)

Section Overlay.
Variables (frame : IplImage) (reg_x reg_y reg_height reg_width : Z).
Hypothesis Hwf : well_formed frame.

Local Abbreviation d0 := (imageData frame).
Local Abbreviation boxed x y := (in_box x y reg_x reg_y reg_width reg_height).
Local Abbreviation overlaid := (overlaid frame reg_x reg_y reg_height reg_width).

Lemma byte_addr_bounds x y w :
  in_frame frame x y w → 0 ≤ byte_addr frame x y w < Z.of_nat (length d0).
Proof.
  destruct Hwf as (Hch & Hstep & Hsize & _). intros (Hx & Hy & Hw).
  unfold byte_addr.
  assert (x * nChannels frame + w < width frame * nChannels frame) by nia.
  assert (0 ≤ x * nChannels frame) by nia.
  assert (y * widthStep frame + widthStep frame ≤ height frame * widthStep frame) by nia.
  assert (0 ≤ y * widthStep frame) by nia.
  lia.
Qed.

Lemma byte_addr_inj x y w x' y' w' :
  in_frame frame x y w → in_frame frame x' y' w' →
  byte_addr frame x y w = byte_addr frame x' y' w' →
  x = x' ∧ y = y' ∧ w = w'.
Proof.
  destruct Hwf as (Hch & Hstep & _ & _).
  intros (Hx & Hy & Hw) (Hx' & Hy' & Hw'). unfold byte_addr. intros Heq.
  assert (0 ≤ x * nChannels frame + w < widthStep frame) by nia.
  assert (0 ≤ x' * nChannels frame + w' < widthStep frame) by nia.
  assert (y = y') as <- by nia.
  assert (x = x') as <- by nia.
  lia.
Qed.

Lemma byte_range k :
  0 ≤ k < Z.of_nat (length d0) → 0 ≤ sel d0 k < 256.
Proof.
  intros Hk. destruct Hwf as (_ & _ & _ & Hbytes).
  rewrite Forall_lookup in Hbytes. apply (Hbytes (Z.to_nat k)). by apply lookup_sel.
Qed.

Lemma overlaid_ext X Y W X' Y' W' d :
  overlaid X Y W d →
  (∀ x y w, in_frame frame x y w →
     (before x y w X Y W ↔ before x y w X' Y' W') ∨ boxed x y = true) →
  overlaid X' Y' W' d.
Proof.
  intros [Hlen Hd] Hsame. split; [done|]. intros x y w Hin.
  rewrite (Hd x y w Hin). destruct (Hsame x y w Hin) as [Hiff| ->].
  - by rewrite (bool_decide_ext _ _ Hiff).
  - by rewrite !andb_false_r.
Qed.

Lemma darken_step X Y W d :
  in_frame frame X Y W → boxed X Y = false → overlaid X Y W d →
  ∃ d', darken frame X Y W d = (d', Done ()) ∧ overlaid X Y (W + 1) d'.
Proof.
  intros Hin Hbox [Hlen Hd].
  pose proof (byte_addr_bounds X Y W Hin) as Hb.
  unfold darken, atomic. fold (byte_addr frame X Y W).
  rewrite load_Done by (rewrite Hlen; done). simpl.
  rewrite store_Done by (rewrite Hlen; done).
  eexists. split; [done|].
  assert (sel d (byte_addr frame X Y W) = sel d0 (byte_addr frame X Y W)) as Hcur.
  { rewrite (Hd X Y W Hin). rewrite bool_decide_eq_false_2; [done|]. unfold before. lia. }
  pose proof (byte_range _ Hb) as Hbyte.
  split; [by rewrite length_insert|].
  intros x y w Hin'. pose proof (byte_addr_bounds x y w Hin') as Hb'.
  destruct (decide (byte_addr frame x y w = byte_addr frame X Y W)) as [Heq|Hne].
  - destruct (byte_addr_inj _ _ _ _ _ _ Hin' Hin Heq) as (-> & -> & ->).
    rewrite sel_insert_eq by (rewrite Hlen; done).
    rewrite bool_decide_eq_true_2 by (unfold before; lia).
    rewrite Hbox, Hcur. simpl. unfold uchar.
    rewrite Z.mod_small by done. apply Z.quot_div_nonneg; lia.
  - rewrite sel_insert_ne by lia. rewrite (Hd x y w Hin').
    assert (before x y w X Y W ↔ before x y w X Y (W + 1)) as Hiff.
    { unfold before.
      assert (¬ (x = X ∧ y = Y ∧ w = W)) by (intros (-> & -> & ->); done). lia. }
    by rewrite (bool_decide_ext _ _ Hiff).
Qed.

Lemma overlay_pixel_step X Y d :
  0 ≤ X < width frame → 0 ≤ Y < height frame → overlaid X Y 0 d →
  ∃ d', (if negb (boxed X Y)
         then for_range 0 (nChannels frame) (λ w, darken frame X Y w)
         else λ d, (d, Done ())) d = (d', Done ())
        ∧ overlaid (X + 1) Y 0 d'.
Proof.
  intros HX HY Hov. destruct (boxed X Y) eqn:Hbox; simpl.
  - exists d. split; [done|]. apply (overlaid_ext X Y 0); [done|].
    intros x y w (Hx & Hy & Hw).
    destruct (decide (x = X ∧ y = Y)) as [[-> ->]|Hne]; [by right|].
    left. unfold before. lia.
  - pose proof Hwf as (Hch & _).
    destruct (for_range_inv (λ w d, overlaid X Y w d)
                (λ w, darken frame X Y w) 0 (nChannels frame) d)
      as (d' & -> & Hov'); [done..| |].
    + intros w d1 Hw Hd1. apply darken_step; [unfold in_frame; lia|done..].
    + exists d'. split; [done|]. apply (overlaid_ext X Y (nChannels frame)); [done|].
      intros x y w (Hx & Hy & Hw). left. unfold before. lia.
Qed.

Lemma overlay_row_step Y d :
  0 ≤ Y < height frame → overlaid 0 Y 0 d →
  ∃ d', for_range 0 (width frame) (λ x,
          if negb (boxed x Y)
          then for_range 0 (nChannels frame) (λ w, darken frame x Y w)
          else λ d, (d, Done ())) d = (d', Done ())
        ∧ overlaid 0 (Y + 1) 0 d'.
Proof.
  intros HY Hov. destruct (decide (0 ≤ width frame)) as [Hw|Hw].
  - destruct (for_range_inv (λ x d, overlaid x Y 0 d)
                (λ x, if negb (boxed x Y)
                      then for_range 0 (nChannels frame) (λ w, darken frame x Y w)
                      else λ d, (d, Done ())) 0 (width frame) d)
      as (d' & -> & Hov'); [done..| |].
    + intros x d1 Hx Hd1. by apply overlay_pixel_step.
    + exists d'. split; [done|]. apply (overlaid_ext (width frame) Y 0); [done|].
      intros x y w (Hx & Hy & Hw'). left. unfold before. lia.
  - rewrite for_range_empty by lia. exists d. split; [done|].
    apply (overlaid_ext 0 Y 0); [done|]. intros x y w (Hx & _). lia.
Qed.

Lemma overlay_pixels_spec :
  ∃ d, overlay_pixels frame reg_x reg_y reg_height reg_width d0 = (d, Done ())
       ∧ length d = length d0
       ∧ ∀ x y w, in_frame frame x y w →
           sel d (byte_addr frame x y w) =
             if boxed x y then sel d0 (byte_addr frame x y w)
             else sel d0 (byte_addr frame x y w) / 4.
Proof.
  assert (overlaid 0 0 0 d0) as Hinit.
  { split; [done|]. intros x y w (Hx & Hy & Hw).
    rewrite bool_decide_eq_false_2; [done|]. unfold before. lia. }
  unfold overlay_pixels. destruct (decide (0 ≤ height frame)) as [Hh|Hh].
  - destruct (for_range_inv (λ y d, overlaid 0 y 0 d)
                (λ y, for_range 0 (width frame) (λ x,
                   if negb (boxed x y)
                   then for_range 0 (nChannels frame) (λ w, darken frame x y w)
                   else λ d, (d, Done ()))) 0 (height frame) d0)
      as (d' & -> & Hlen & Hov'); [done..| |].
    + intros y d1 Hy Hd1. by apply overlay_row_step.
    + exists d'. split_and!; [done..|]. intros x y w Hin. rewrite (Hov' x y w Hin).
      destruct Hin as (Hx & Hy & Hw).
      rewrite bool_decide_eq_true_2 by (unfold before; lia).
      by destruct (boxed x y).
  - rewrite for_range_empty by lia. exists d0. split_and!; [done..|].
    intros x y w (_ & Hy & _). lia.
Qed.
End Overlay.

(** When the box holds every pixel of the frame, no byte is written. *)
Lemma overlay_pixels_covered (frame : IplImage) (reg_x reg_y reg_height reg_width : Z) :
  (∀ x y, 0 ≤ x < width frame → 0 ≤ y < height frame →
     in_box x y reg_x reg_y reg_width reg_height = true) →
  overlay_pixels frame reg_x reg_y reg_height reg_width (imageData frame)
  = (imageData frame, Done ()).
Proof.
  intros Hcover. unfold overlay_pixels.
  apply for_range_skip. intros y Hy.
  apply for_range_skip. intros x Hx.
  by rewrite Hcover.
Qed.

(** [in_box] in the region's coordinates: strictly between the four edge
    lines. *)
Lemma in_box_between (x y box_x box_y width height : Z) :
  in_box x y box_x box_y width height = true
  ↔ box_x - width < x < box_x + width ∧ box_y - height < y < box_y + height.
Proof.
  unfold in_box. rewrite !andb_true_iff, !Z.gtb_ltb, !Z.ltb_lt. lia.
Qed.

(** C7. On a well-formed frame [overlay_frame] completes and leaves a frame
    of the same dimensions and storage size in which each channel of a pixel
    strictly outside the region (centre [reg_x], [reg_y], half-extents
    [reg_width], [reg_height]) holds its original byte divided by 4, rounded
    down, and so does each channel of a pixel on one of the region's four
    edge lines, while each channel of a pixel strictly between the edge
    lines keeps its byte.  When every pixel of the frame lies strictly
    between the edge lines the frame is unchanged; a region of zero extent
    divides every channel by 4. *)
Theorem overlay_frame_darkens_outside
    (frame : IplImage) (reg_x reg_y reg_height reg_width : Z) :
  well_formed frame →
  let out := fst (overlay_frame frame reg_x reg_y reg_height reg_width) in
  snd (overlay_frame frame reg_x reg_y reg_height reg_width) = Done ()
  ∧ nChannels out = nChannels frame ∧ width out = width frame
  ∧ height out = height frame ∧ widthStep out = widthStep frame
  ∧ length (imageData out) = length (imageData frame)
  ∧ (∀ x y w, in_frame frame x y w →
       x < reg_x - reg_width ∨ reg_x + reg_width < x
       ∨ y < reg_y - reg_height ∨ reg_y + reg_height < y →
       sel (imageData out) (byte_addr frame x y w)
         = sel (imageData frame) (byte_addr frame x y w) / 4)
  ∧ (∀ x y w, in_frame frame x y w →
       x = reg_x - reg_width ∨ x = reg_x + reg_width
       ∨ y = reg_y - reg_height ∨ y = reg_y + reg_height →
       sel (imageData out) (byte_addr frame x y w)
         = sel (imageData frame) (byte_addr frame x y w) / 4)
  ∧ (∀ x y w, in_frame frame x y w →
       reg_x - reg_width < x < reg_x + reg_width →
       reg_y - reg_height < y < reg_y + reg_height →
       sel (imageData out) (byte_addr frame x y w)
         = sel (imageData frame) (byte_addr frame x y w))
  ∧ (∀ x y w, in_frame frame x y w →
       sel (imageData out) (byte_addr frame x y w) =
         if in_box x y reg_x reg_y reg_width reg_height
         then sel (imageData frame) (byte_addr frame x y w)
         else sel (imageData frame) (byte_addr frame x y w) / 4)
  ∧ (reg_x - reg_width < 0 → width frame - 1 < reg_x + reg_width →
     reg_y - reg_height < 0 → height frame - 1 < reg_y + reg_height →
     out = frame)
  ∧ (reg_width = 0 → reg_height = 0 →
     ∀ x y w, in_frame frame x y w →
       sel (imageData out) (byte_addr frame x y w)
         = sel (imageData frame) (byte_addr frame x y w) / 4).
Proof.
  intros Hwf out. subst out.
  destruct (overlay_pixels_spec frame reg_x reg_y reg_height reg_width Hwf)
    as (d & Hrun & Hlen & Hd).
  assert (∀ x y w, in_frame frame x y w →
            ¬ (reg_x - reg_width < x < reg_x + reg_width
               ∧ reg_y - reg_height < y < reg_y + reg_height) →
            sel d (byte_addr frame x y w)
              = sel (imageData frame) (byte_addr frame x y w) / 4) as Hout.
  { intros x y w Hin Hbox. rewrite (Hd x y w Hin).
    destruct (in_box x y reg_x reg_y reg_width reg_height) eqn:E; [|done].
    by apply in_box_between in E. }
  unfold overlay_frame. rewrite Hrun. simpl.
  split_and!; try done.
  - intros x y w Hin Hfar. apply Hout; [done|]. lia.
  - intros x y w Hin Hedge. apply Hout; [done|]. lia.
  - intros x y w Hin Hx Hy. rewrite (Hd x y w Hin).
    by rewrite (proj2 (in_box_between x y reg_x reg_y reg_width reg_height)).
  - intros Hl Hr Ht Hb.
    rewrite (overlay_pixels_covered frame reg_x reg_y reg_height reg_width) in Hrun.
    + injection Hrun as <-. by destruct frame.
    + intros x y Hx Hy. apply in_box_between. lia.
  - intros -> -> x y w Hin. apply Hout; [done|]. lia.
Qed.

Lemma overlay_frame_darkens_outside_witness :
  let frame := {| nChannels := 1; width := 4; height := 4; widthStep := 5;
                  imageData := [100; 101; 102; 103; 7;
                                110; 111; 112; 113; 7;
                                120; 121; 122; 123; 7;
                                130; 131; 132; 133; 7] |} in
  snd (overlay_frame frame 2 2 2 2) = Done ()
  ∧ imageData (fst (overlay_frame frame 2 2 2 2))
    = [25; 25; 25; 25; 7;
       27; 111; 112; 113; 7;
       30; 121; 122; 123; 7;
       32; 131; 132; 133; 7].
Proof.
  intros frame.
  assert (well_formed frame) as Hwf.
  { unfold well_formed. simpl. split_and!; [lia..|].
    repeat (constructor; [lia|]). constructor. }
  destruct (overlay_frame_darkens_outside frame 2 2 2 2 Hwf) as (Hrun & _).
  split; [exact Hrun|reflexivity].
Defined.

(** ** median_blur *)

(** C9. Called on a frame whose channel count is not 1, [median_blur]
    exits with [EXIT_FAILURE] after a diagnostic that names the frame's
    channel count and the one supported count; it returns no filtered frame
    and the frame is as it was. *)
Theorem median_blur_rejects_channels (fuel : nat) (frame : IplImage) :
  nChannels frame ≠ 1 →
  median_blur fuel frame =
    (frame,
     Exit EXIT_FAILURE
       ("median_blur was called with " ++ dec (nChannels frame)
        ++ " channels, but only supports 1 channel." ++ newline)%string).
Proof.
  intros Hch. unfold median_blur.
  destruct (Z.eqb_spec (nChannels frame) 1) as [Heq|_]; [done|]. done.
Qed.

Lemma median_blur_rejects_channels_witness :
  let frame := {| nChannels := 3; width := 1; height := 1; widthStep := 3;
                  imageData := [1; 2; 3] |} in
  median_blur 0 frame =
    (frame,
     Exit 1 ("median_blur was called with 3 channels, but only supports 1 channel."
             ++ newline)%string).
Proof.
  intros frame.
  apply (median_blur_rejects_channels 0 frame). simpl. lia.
Defined.

Section Gather.
Variables (frame : IplImage) (x y : Z).

Lemma gather_sample_cases s0 s yo xo :
  gathering s0 s →
  (∃ s', gather_sample frame x y yo xo s = (s', Done ()) ∧ gathering s0 s')
  ∨ (∃ s', gather_sample frame x y yo xo s = (s', Fault) ∧ gathering s0 s').
Proof.
  intros [Himg Hlen]. unfold gather_sample, atomic.
  destruct (load (img s) _) as [v| | |] eqn:Hload; simpl;
    try (unfold load in Hload; repeat case_match; done).
  - destruct (store (buf s) _ v) as [b| | |] eqn:Hstore; simpl;
      try (unfold store in Hstore; repeat case_match; done).
    + left. eexists. split; [done|]. apply store_inv in Hstore as [_ ->].
      split; simpl; [done|]. by rewrite length_insert.
    + right. by exists s.
  - right. by exists s.
Qed.

(** The sample past the end of the last window row is one too many. *)
Lemma gather_sample_overrun s0 s :
  length (buf s0) = Z.to_nat num_elements → gathering s0 s →
  ∃ s', gather_sample frame x y (num_offsets - 1) num_offsets s = (s', Fault)
        ∧ gathering s0 s'.
Proof.
  intros Hsize [Himg Hlen]. unfold gather_sample, atomic.
  destruct (load (img s) _) as [v| | |] eqn:Hload; simpl;
    try (unfold load in Hload; repeat case_match; done).
  - rewrite store_Fault; [by exists s|].
    rewrite Hlen, Hsize. vm_compute. discriminate.
  - by exists s.
Qed.

(** The gathering loops of one pixel always fault: the store of the sample
    at [yo = num_offsets - 1], [xo = num_offsets] is outside the window
    buffer, unless an earlier read was already outside the frame. *)
Lemma gather_overruns s0 s :
  length (buf s0) = Z.to_nat num_elements → gathering s0 s →
  ∃ s', gather frame x y s = (s', Fault) ∧ gathering s0 s'.
Proof.
  intros Hsize Hs. unfold gather.
  apply (for_range_stops (λ _ s1, gathering s0 s1) (gathering s0) _ _ _ _
           (num_offsets - 1)); [by vm_compute|done| |].
  - intros yo s1 _ Hs1.
    apply (for_range_cases (λ _ s2, gathering s0 s2) (gathering s0));
      [by vm_compute|done|].
    intros xo s2 _ Hs2. by apply gather_sample_cases.
  - intros s1 Hs1.
    apply (for_range_stops (λ _ s2, gathering s0 s2) (gathering s0) _ _ _ _
             num_offsets); [by vm_compute|done| |].
    + intros xo s2 _ Hs2. by apply gather_sample_cases.
    + intros s2 Hs2. by apply gather_sample_overrun.
Qed.
End Gather.

(** C2. The gathering loops of [median_blur] do not gather the 121 samples
    of the 11x11 window: they run [yo] and [xo] over 0..11, and for every
    frame, pixel and contents the run faults, leaving the frame's bytes as
    they were, since the 144 samples do not fit the 121-byte window buffer. *)
Theorem gather_runs_past_window (frame : IplImage) (x y : Z) (s : blur_state) :
  length (buf s) = Z.to_nat num_elements →
  ∃ s', gather frame x y s = (s', Fault) ∧ img s' = img s.
Proof.
  intros Hsize.
  destruct (gather_overruns frame x y s s Hsize) as (s' & Hrun & Himg & _); [done|].
  by exists s'.
Qed.

Lemma gather_runs_past_window_witness :
  let frame := {| nChannels := 1; width := 13; height := 12; widthStep := 13;
                  imageData := replicate 156 7 |} in
  let s := {| img := imageData frame; buf := replicate 121 0 |} in
  ∃ s', gather frame 5 5 s = (s', Fault) ∧ img s' = img s.
Proof.
  intros frame s. apply (gather_runs_past_window frame 5 5 s). reflexivity.
Defined.

(** On every single-channel frame of width and height 11 or more
    [median_blur] faults while gathering the window of its first interior
    pixel, before any byte of the frame is written. *)
Lemma median_blur_faults (fuel : nat) (frame : IplImage) :
  nChannels frame = 1 →
  2 * BLUR_RADIUS + 1 ≤ width frame → 2 * BLUR_RADIUS + 1 ≤ height frame →
  median_blur fuel frame = (frame, Fault).
Proof.
  intros Hch Hw Hh. unfold median_blur. rewrite Hch. simpl negb. cbv iota.
  set (s0 := {| img := imageData frame; buf := replicate (Z.to_nat num_elements) 0 |}).
  assert (length (buf s0) = Z.to_nat num_elements) as Hsize by reflexivity.
  unfold BLUR_RADIUS in Hw, Hh.
  destruct (for_range_stops (λ _ s, gathering s0 s) (gathering s0)
              (λ y, for_range BLUR_RADIUS (width frame - BLUR_RADIUS) (λ x,
                 seq_run (gather frame x y) (put_median fuel frame x y)))
              BLUR_RADIUS (height frame - BLUR_RADIUS) s0 BLUR_RADIUS)
    as (s' & Hrun & Himg & _); [unfold BLUR_RADIUS; lia|done|intros; lia| |].
  - intros s Hs.
    apply (for_range_stops (λ _ s, gathering s0 s) (gathering s0) _ _ _ _ BLUR_RADIUS);
      [unfold BLUR_RADIUS; lia|done|intros; lia|].
    intros s1 Hs1. unfold seq_run.
    destruct (gather_overruns frame BLUR_RADIUS BLUR_RADIUS s0 s1 Hsize Hs1)
      as (s2 & -> & Hs2).
    by exists s2.
  - unfold blur_pixels. rewrite Hrun, Himg. by destruct frame.
Qed.

(** The one store of the filter, [frame->imageData[y * frame->widthStep + x]
    = median(...)], changes no byte but the one at that offset. *)
Lemma put_median_elsewhere (fuel : nat) (frame : IplImage) (x y : Z)
    (s : blur_state) (k : Z) :
  0 ≤ k → k ≠ y * widthStep frame + x →
  sel (img (fst (put_median fuel frame x y s))) k = sel (img s) k.
Proof.
  intros Hk Hne. unfold put_median, atomic.
  destruct (median fuel (buf s) num_elements) as [[b m]| | |]; simpl; try done.
  destruct (store (img s) (y * widthStep frame + x) m) as [d| | |] eqn:Hstore;
    simpl; try done.
  apply store_inv in Hstore as [Hin ->]. apply sel_insert_ne; lia.
Qed.



(** ** final_calibration *)

Section Sampling.
Variables (frame : IplImage) (reg_x reg_y reg_height reg_width v : Z).
Hypothesis Hheight : 0 < reg_height.
Hypothesis Hwidth : 0 < reg_width.
Hypothesis Huniform : ∀ x y k,
  reg_x - reg_width ≤ x < reg_x + reg_width →
  reg_y - reg_height ≤ y < reg_y + reg_height →
  0 ≤ k < 3 →
  load (imageData frame) (byte_addr frame x y k) = Done v.

Local Abbreviation size := (2 * reg_height * (2 * reg_width)).
Local Abbreviation sampled := (sampled reg_x reg_y reg_height reg_width v).

Lemma count_region_spec :
  count_region reg_x reg_y reg_height reg_width 0 = (size, Done ()).
Proof.
  unfold count_region.
  destruct (for_range_inv
              (λ y n, n = (y - (reg_y - reg_height)) * (2 * reg_width))
              (λ y, for_range (reg_x - reg_width) (reg_x + reg_width)
                      (λ x, atomic (λ n, Done (n + 1))))
              (reg_y - reg_height) (reg_y + reg_height) 0)
    as (n & -> & ->); [lia|lia| |f_equal; lia].
  intros y n Hy ->.
  destruct (for_range_inv
              (λ x n, n = (y - (reg_y - reg_height)) * (2 * reg_width)
                          + (x - (reg_x - reg_width)))
              (λ x, atomic (λ n, Done (n + 1)))
              (reg_x - reg_width) (reg_x + reg_width)
              ((y - (reg_y - reg_height)) * (2 * reg_width)))
    as (n & -> & ->); [lia|lia| |].
  - intros x n Hx ->. eexists. split; [done|]. lia.
  - eexists. split; [done|]. lia.
Qed.

Lemma sample_pixel_step x y st :
  reg_x - reg_width ≤ x < reg_x + reg_width →
  reg_y - reg_height ≤ y < reg_y + reg_height →
  sampled x y st →
  ∃ st', sample_pixel frame x y st = (st', Done ()) ∧ sampled (x + 1) y st'.
Proof.
  intros Hx Hy (Hidx & Hh & Hs & Hv & Hseen).
  assert (0 ≤ idx st < size) as Hin by nia.
  unfold sample_pixel, atomic.
  pose proof (Huniform x y 0 Hx Hy ltac:(lia)) as H0.
  pose proof (Huniform x y 1 Hx Hy ltac:(lia)) as H1.
  pose proof (Huniform x y 2 Hx Hy ltac:(lia)) as H2.
  unfold byte_addr in H0, H1, H2. rewrite Z.add_0_r in H0.
  rewrite H0, H1, H2. simpl.
  rewrite !store_Done by lia. simpl.
  eexists. split; [done|]. split_and!; simpl; rewrite ?length_insert; try lia.
  intros k Hk. destruct (decide (k = idx st)) as [->|Hne].
  - rewrite !sel_insert_eq by lia. done.
  - rewrite !sel_insert_ne by lia. apply Hseen. lia.
Qed.

Lemma uniform_container (a : list Z) :
  Z.of_nat (length a) = size → (∀ k, 0 ≤ k < size → sel a k = v) →
  a = replicate (Z.to_nat size) v.
Proof.
  intros Hlen Hall. apply sel_ext.
  - rewrite length_replicate. lia.
  - intros k Hk. rewrite Hall by lia. symmetry. apply sel_lookup; [lia|].
    apply lookup_replicate_2. lia.
Qed.

Lemma sample_region_spec :
  completed (sample_region frame reg_x reg_y reg_height reg_width
               {| h_arr := init_arr size; s_arr := init_arr size;
                  v_arr := init_arr size; idx := 0 |})
  = Done {| h_arr := replicate (Z.to_nat size) v;
            s_arr := replicate (Z.to_nat size) v;
            v_arr := replicate (Z.to_nat size) v; idx := size |}.
Proof.
  unfold sample_region.
  destruct (for_range_inv (λ y st, sampled (reg_x - reg_width) y st)
              (λ y, for_range (reg_x - reg_width) (reg_x + reg_width)
                      (λ x, sample_pixel frame x y))
              (reg_y - reg_height) (reg_y + reg_height)
              {| h_arr := init_arr size; s_arr := init_arr size;
                 v_arr := init_arr size; idx := 0 |})
    as (st & -> & Hidx & Hh & Hs & Hv & Hseen); [lia| | |].
  - unfold init_arr. split_and!; simpl; rewrite ?length_replicate; try lia.
  - intros y st Hy Hst.
    destruct (for_range_inv (λ x st, sampled x y st)
                (λ x, sample_pixel frame x y)
                (reg_x - reg_width) (reg_x + reg_width) st)
      as (st' & -> & Hidx & Hrest); [lia|done| |].
    + intros x st1 Hx Hst1. by apply sample_pixel_step.
    + exists st'. split; [done|]. split; [lia|done].
  - simpl. f_equal. destruct st as [h s0 v0 i]. simpl in *.
    assert (i = size) as -> by lia.
    f_equal; apply uniform_container; try done; intros k Hk; by apply Hseen.
Qed.
End Sampling.

Lemma avg_uniform (n : nat) (v : Z) :
  (0 < n)%nat → avg (replicate n v) = Done v.
Proof.
  intros Hn. unfold avg. rewrite length_replicate.
  destruct (Z.eqb_spec (Z.of_nat n) 0); [lia|]. f_equal.
  assert (foldr Z.add 0 (replicate n v) = v * Z.of_nat n) as ->.
  { clear Hn n0. induction n as [|n IH]; [simpl; lia|].
    simpl replicate. simpl foldr. rewrite IH. lia. }
  apply Z.quot_mul. lia.
Qed.

(** The band of every mean, by enumeration: the upper edge keeps the low
    eight bits of the integer part of the double product. *)
Lemma band_values (u : Z) :
  0 ≤ u ≤ 255 →
  band_min u = u * 6 / 10 ∧
  band_max u = (u * 14 / 10 - (if rounds_below u then 1 else 0)) mod 256.
Proof.
  intros Hu.
  assert (forallb (λ n : nat,
            let u := Z.of_nat n in
            (band_min u =? u * 6 / 10)
            && (band_max u
                =? (u * 14 / 10 - (if rounds_below u then 1 else 0)) mod 256))
            (seq 0 256) = true) as Hall by (vm_compute; reflexivity).
  rewrite forallb_forall in Hall.
  specialize (Hall (Z.to_nat u)). rewrite Z2Nat.id in Hall by lia.
  apply andb_true_iff in Hall as [H1 H2]; [by rewrite Z.eqb_eq in H1, H2|].
  apply in_seq. lia.
Qed.

(** The band is in order for every mean up to 182 and inverted for every
    greater mean: the product by 1.4 is then 256 or more, and its low
    eight bits are below the lower edge. *)
Lemma band_order (u : Z) :
  0 ≤ u ≤ 255 →
  if u <=? 182 then band_min u ≤ band_max u else band_max u < band_min u.
Proof.
  intros Hu.
  assert (forallb (λ n : nat,
            let u := Z.of_nat n in
            if u <=? 182 then band_min u <=? band_max u
            else band_max u <? band_min u) (seq 0 256) = true) as Hall
    by (vm_compute; reflexivity).
  rewrite forallb_forall in Hall.
  specialize (Hall (Z.to_nat u)). rewrite Z2Nat.id in Hall by lia.
  assert (In (Z.to_nat u) (seq 0 256)) as Hin by (apply in_seq; lia).
  specialize (Hall Hin). cbv zeta in Hall.
  destruct (u <=? 182); [by apply Z.leb_le|by apply Z.ltb_lt].
Qed.

Lemma generic_calibration_band (c : calibration_t) :
  let c' := generic_calibration c in
  done c' = true ∧ h_min c' ≤ h_max c' ∧ s_min c' ≤ s_max c' ∧ v_min c' ≤ v_max c'.
Proof. simpl. lia. Qed.

(** C5. [final_calibration] can hand back a band with [done] set whose
    upper edge is below its lower edge.  On the 40x40 HSV frame whose pixels
    all are (10, 100, 200), with the region [calibrate] derives for it
    (centre 20, 20, half-extents 2, 2), the mean of the value channel is
    200, its lower edge 120, and its upper edge the low eight bits of 280,
    which is 24; the hue and saturation bands are in order. *)
Theorem final_calibration_inverts_band (c : calibration_t) :
  let frame := {| nChannels := 3; width := 40; height := 40; widthStep := 120;
                  imageData := concat (replicate 1600 [10; 100; 200]) |} in
  ∃ c', final_calibration frame c 20 20 2 2 = Done c' ∧ done c' = true ∧
        h_min c' = 6 ∧ h_max c' = 14 ∧
        s_min c' = 60 ∧ s_max c' = 140 ∧
        v_min c' = 120 ∧ v_max c' = 24 ∧ v_max c' < v_min c'.
Proof. intros frame. eexists. split; [by vm_compute|]. by vm_compute. Qed.




(** ** calibrate *)

Section NoFrame.
Variable cvFlip : IplImage → IplImage.
Variable cvCvtColor : Z → IplImage → IplImage.

(** While the stream yields no frame and the key is not [q], the loop runs
    its 90 iterations and leaves the frame pointer null, the region at
    zero and the log as it was. *)
Lemma calibrate_loop_no_frame (fuel : nat) :
  ∀ (w : world) (timer : Z),
  Forall (λ f, f = None) (captures w) → Forall (λ k, k ≠ key_q) (keys w) →
  0 ≤ timer ≤ 90 → 91 - timer ≤ Z.of_nat fuel →
  ∃ w', calibrate_loop cvFlip fuel false
          {| cs_world := w; cs_frame := None;
             cs_reg_x := 0; cs_reg_y := 0; cs_reg_height := 0; cs_reg_width := 0;
             cs_timer := timer |}
        = Done {| cs_world := w'; cs_frame := None;
                  cs_reg_x := 0; cs_reg_y := 0; cs_reg_height := 0;
                  cs_reg_width := 0; cs_timer := 90 |}
        ∧ events w' = events w.
Proof.
  induction fuel as [|fuel IH]; intros w timer Hcap Hkeys Htimer Hfuel; [lia|].
  simpl calibrate_loop.
  assert (∃ w1 k, cvWaitKey w = (w1, k) ∧ k ≠ key_q ∧ captures w1 = captures w
                  ∧ events w1 = events w ∧ Forall (λ k, k ≠ key_q) (keys w1))
    as (w1 & k & -> & Hk & Hcap1 & Hev1 & Hkeys1).
  { unfold cvWaitKey. destruct (keys w) as [|k ks] eqn:Hks.
    - exists w, (-1). split_and!; try done. by rewrite Hks.
    - apply Forall_cons in Hkeys as [Hk Hks']. eexists _, k. by split_and!. }
  destruct (Z.eqb_spec k key_q) as [|_]; [done|]. simpl.
  destruct (Z.ltb_spec timer 90) as [Hlt|Hge]; simpl.
  - assert (∃ w2, cvQueryFrame w1 = (w2, None) ∧ events w2 = events w1
                  ∧ Forall (λ f, f = None) (captures w2) ∧ keys w2 = keys w1)
      as (w2 & -> & Hev2 & Hcap2 & Hkeys2).
    { unfold cvQueryFrame. rewrite Hcap1. destruct (captures w) as [|f fs] eqn:Hfs.
      - exists w1. split_and!; try done. rewrite Hcap1. constructor.
      - apply Forall_cons in Hcap as [-> Hfs']. eexists. by split_and!. }
    destruct (IH w2 (timer + 1)) as (w' & -> & Hev'); [done|by rewrite Hkeys2|lia..|].
    exists w'. split; [done|]. congruence.
  - assert (timer = 90) as -> by lia. exists w1. by split.
Qed.

(** C8. When the capture stream never yields a frame and [q] is never
    pressed, [calibrate] does not stop with an error of its own: after the
    90 iterations it passes the null frame pointer to the HSV conversion,
    which is the one call it logs, and the run faults there. *)
Theorem calibrate_without_frame (fuel : nat) (w : world) (c : calibration_t) :
  Forall (λ f, f = None) (captures w) → Forall (λ k, k ≠ key_q) (keys w) →
  (91 ≤ fuel)%nat →
  ∃ w', calibrate cvFlip cvCvtColor fuel w c = (w', Fault) ∧
        events w' = events w ++ [EvCvtColor None CV_BGR2HSV].
Proof.
  intros Hcap Hkeys Hfuel. unfold calibrate. simpl done.
  destruct (calibrate_loop_no_frame fuel w 0 Hcap Hkeys) as (w1 & -> & Hev); [lia..|].
  simpl. eexists. split; [done|]. simpl. by rewrite Hev.
Qed.
End NoFrame.

Lemma calibrate_without_frame_witness :
  ∃ w', calibrate (λ f, f) (λ _ f, f) 91
          {| keys := [32]; captures := [None; None]; events := [] |}
          {| h_max := 0; h_min := 0; s_max := 0; s_min := 0; v_max := 0;
             v_min := 0; done := false; upper := []; lower := [] |}
        = (w', Fault) ∧
        events w' = [] ++ [EvCvtColor None CV_BGR2HSV].
Proof.
  apply (calibrate_without_frame (λ f, f) (λ _ f, f) 91
           {| keys := [32]; captures := [None; None]; events := [] |}).
  - simpl. repeat constructor.
  - simpl. repeat constructor. unfold key_q. lia.
  - lia.
Defined.

(** * Further properties of the code *)

(** ** Outcomes *)

Lemma bind_Done_inv {A B : Type} (m : outcome A) (f : A → outcome B) (b : B) :
  m ≫= f = Done b → ∃ a, m = Done a ∧ f a = Done b.
Proof. destruct m as [a| | |]; simpl; try done. intros H. by exists a. Qed.

Lemma load_Fault (a : list Z) (i : Z) :
  i < 0 ∨ Z.of_nat (length a) ≤ i → load a i = Fault.
Proof.
  intros Hout. unfold load. destruct (Z.leb_spec 0 i); [|done].
  rewrite lookup_ge_None_2 by lia. done.
Qed.

(** ** swap, partition and quick_sort on their own *)

(** X1. Swapping the same two positions twice gives the buffer back. *)
Theorem swap_involutive (a : list Z) (i j : Z) :
  0 ≤ i < Z.of_nat (length a) → 0 ≤ j < Z.of_nat (length a) →
  ∃ a', swap a i j = Done a' ∧ swap a' i j = Done a.
Proof.
  intros Hi Hj.
  destruct (swap_spec a i j Hi Hj) as (a' & Hrun & _ & Hlen & Hsi & Hsj & Hother).
  exists a'. split; [done|].
  destruct (swap_spec a' i j) as (a'' & -> & _ & Hlen' & Hsi' & Hsj' & Hother'); [lia..|].
  f_equal. apply sel_ext; [congruence|].
  intros k Hk. destruct (decide (k = i)) as [->|Hki]; [congruence|].
  destruct (decide (k = j)) as [->|Hkj]; [congruence|].
  rewrite Hother', Hother by lia. done.
Qed.

Lemma swap_involutive_witness :
  ∃ a', swap [4; 5; 6] 0 2 = Done a' ∧ swap a' 0 2 = Done [4; 5; 6].
Proof. apply (swap_involutive [4; 5; 6] 0 2); simpl; lia. Defined.

(** X2. [partition] puts the byte that was at [left] at the index it
    returns, leaves every byte right of it in the range strictly greater,
    and touches nothing outside [left..right]. *)
Theorem partition_keeps_rest (a : list Z) (left right : Z) (fuel : nat) :
  0 ≤ left → left ≤ right → right < Z.of_nat (length a) →
  right - left + 3 ≤ Z.of_nat fuel →
  ∃ a' j, partition fuel a left right = Done (a', j) ∧
          length a' = length a ∧ sel a' j = sel a left ∧
          (∀ k, j < k ≤ right → sel a' j < sel a' k) ∧
          (∀ k, 0 ≤ k → k < left ∨ right < k → sel a' k = sel a k).
Proof.
  intros Hl Hlr Hr Hfuel.
  destruct (partition_spec a left right ltac:(lia) fuel ltac:(lia))
    as (a' & j & Hrun & (Hlen & Hperm & Hout) & Hj & Hpiv & Hlow & Hhigh).
  exists a', j. by split_and!.
Qed.

Lemma partition_keeps_rest_witness :
  ∃ a' j, partition 5 [9; 5; 8; 1; 7] 1 3 = Done (a', j) ∧
          length a' = length [9; 5; 8; 1; 7] ∧ sel a' j = sel [9; 5; 8; 1; 7] 1 ∧
          (∀ k, j < k ≤ 3 → sel a' j < sel a' k) ∧
          (∀ k, 0 ≤ k → k < 1 ∨ 3 < k → sel a' k = sel [9; 5; 8; 1; 7] k).
Proof. apply (partition_keeps_rest [9; 5; 8; 1; 7] 1 3 5); simpl; lia. Defined.

(** X3. When no byte of the range is above the pivot (equal bytes, or a
    greatest byte at [left]), [partition] returns [right]: the split is as
    uneven as it can be. *)
Theorem partition_greatest_pivot (a : list Z) (left right : Z) (fuel : nat) :
  0 ≤ left → left ≤ right → right < Z.of_nat (length a) →
  right - left + 3 ≤ Z.of_nat fuel →
  (∀ k, left ≤ k ≤ right → sel a k ≤ sel a left) →
  ∃ a', partition fuel a left right = Done (a', right).
Proof.
  intros Hl Hlr Hr Hfuel Hmax.
  destruct (partition_spec a left right ltac:(lia) fuel ltac:(lia))
    as (a' & j & Hrun & Hre & Hj & Hpiv & Hlow & Hhigh).
  destruct (decide (j = right)) as [->|Hne]; [by exists a'|].
  specialize (Hhigh right ltac:(lia)).
  destruct (reorders_elem a a' left right right Hre) as (k' & Hk' & Heq); [lia..|].
  specialize (Hmax k' Hk'). lia.
Qed.

Lemma partition_greatest_pivot_witness :
  ∃ a', partition 6 [3; 3; 3; 3] 0 3 = Done (a', 3).
Proof.
  apply (partition_greatest_pivot [3; 3; 3; 3] 0 3 6); simpl; try lia.
  intros k Hk.
  assert (k = 0 ∨ k = 1 ∨ k = 2 ∨ k = 3) as [-> | [-> | [-> | ->]]] by lia;
    vm_compute; discriminate.
Defined.

(** X4. [quick_sort] on a range of the buffer puts the range in ascending
    order, keeps the bytes of the buffer (as a multiset) and its length, and
    touches nothing outside the range. *)
Theorem quick_sort_range (a : list Z) (left right : Z) (fuel : nat) :
  0 ≤ left → left ≤ right → right < Z.of_nat (length a) →
  right - left + 4 ≤ Z.of_nat fuel →
  ∃ a', quick_sort fuel a left right = Done a' ∧
        length a' = length a ∧ a' ≡ₚ a ∧
        (∀ p q, left ≤ p → p ≤ q → q ≤ right → sel a' p ≤ sel a' q) ∧
        (∀ k, 0 ≤ k → k < left ∨ right < k → sel a' k = sel a k).
Proof.
  intros Hl Hlr Hr Hfuel.
  destruct (quick_sort_spec fuel a left right)
    as (a' & Hrun & (Hlen & Hperm & Hout) & Hasc); [lia..|].
  exists a'. by split_and!.
Qed.

Lemma quick_sort_range_witness :
  ∃ a', quick_sort 7 [9; 5; 8; 1; 7] 1 3 = Done a' ∧
        length a' = length [9; 5; 8; 1; 7] ∧ a' ≡ₚ [9; 5; 8; 1; 7] ∧
        (∀ p q, 1 ≤ p → p ≤ q → q ≤ 3 → sel a' p ≤ sel a' q) ∧
        (∀ k, 0 ≤ k → k < 1 ∨ 3 < k → sel a' k = sel [9; 5; 8; 1; 7] k).
Proof. apply (quick_sort_range [9; 5; 8; 1; 7] 1 3 7); simpl; lia. Defined.

(** A range of two positions or more that is not inside the buffer makes
    [partition] read outside it. *)
Lemma partition_outside (a : list Z) (left right : Z) (fuel : nat) :
  left < right → left < 0 ∨ Z.of_nat (length a) ≤ right →
  ∀ r, partition fuel a left right ≠ Done r.
Proof.
  intros Hlt Hout r Hrun. unfold partition in Hrun.
  apply bind_Done_inv in Hrun as (pivot & Hload & Hrun).
  apply load_inv in Hload as [Hleft _].
  apply bind_Done_inv in Hrun as ([a1 j] & Hloop & _).
  destruct fuel as [|fuel]; [done|]. simpl in Hloop.
  destruct (Z.ltb_spec left right); [|lia].
  apply bind_Done_inv in Hloop as (i' & _ & Hloop).
  apply bind_Done_inv in Hloop as (j' & Hdown & _).
  destruct fuel as [|fuel]; [done|]. simpl in Hdown.
  rewrite load_Fault in Hdown by lia. done.
Qed.

(** X5. A call on a range of two positions or more that is not inside the
    buffer never completes: [partition] and [quick_sort] read outside the
    buffer, and so does a query whose [num_elements] exceeds the buffer. *)
Theorem sort_outside_buffer (a : list Z) (left right : Z) (fuel : nat) :
  left < right → left < 0 ∨ Z.of_nat (length a) ≤ right →
  (∀ r, partition fuel a left right ≠ Done r) ∧
  (∀ a', quick_sort fuel a left right ≠ Done a') ∧
  (left = 0 →
   ∀ r, lower_quartile fuel a (right + 1) ≠ Done r ∧
        median fuel a (right + 1) ≠ Done r ∧
        upper_quartile fuel a (right + 1) ≠ Done r).
Proof.
  intros Hlt Hout.
  assert (∀ f a', quick_sort f a left right ≠ Done a') as Hsort.
  { intros f a' Hrun. destruct f as [|f]; [done|]. simpl in Hrun.
    destruct (Z.ltb_spec left right); [|lia].
    apply bind_Done_inv in Hrun as ([a1 j] & Hpart & _).
    by apply partition_outside in Hpart. }
  split_and!; [by apply partition_outside|by apply Hsort|].
  intros -> r. unfold lower_quartile, median, upper_quartile.
  replace (right + 1 - 1) with right by lia.
  split_and!; intros Hrun; apply bind_Done_inv in Hrun as (a1 & Hq & _);
    by apply Hsort in Hq.
Qed.

Lemma sort_outside_buffer_witness :
  (∀ r, partition 9 [1; 2; 3] 0 3 ≠ Done r) ∧
  (∀ a', quick_sort 9 [1; 2; 3] 0 3 ≠ Done a') ∧
  (0 = 0 →
   ∀ r, lower_quartile 9 [1; 2; 3] (3 + 1) ≠ Done r ∧
        median 9 [1; 2; 3] (3 + 1) ≠ Done r ∧
        upper_quartile 9 [1; 2; 3] (3 + 1) ≠ Done r).
Proof. apply (sort_outside_buffer [1; 2; 3] 0 3 9); simpl; lia. Defined.

(** ** The queries on a prefix of the buffer *)

Lemma sel_take (a : list Z) (n : nat) (k : Z) :
  0 ≤ k < Z.of_nat n → sel (take n a) k = sel a k.
Proof. intros Hk. unfold sel. rewrite lookup_take_lt by lia. done. Qed.

Lemma sel_app_l (a b : list Z) (k : Z) :
  0 ≤ k < Z.of_nat (length a) → sel (a ++ b) k = sel a k.
Proof. intros Hk. unfold sel. rewrite lookup_app_l by lia. done. Qed.

(** Sorting the first [N] positions sorts the prefix and keeps the rest. *)
Lemma quick_sort_prefix (a : list Z) (N : Z) (fuel : nat) :
  1 ≤ N ≤ Z.of_nat (length a) → N + 4 ≤ Z.of_nat fuel →
  quick_sort fuel a 0 (N - 1)
  = Done (in_order (take (Z.to_nat N) a) ++ drop (Z.to_nat N) a).
Proof.
  intros HN Hfuel.
  destruct (quick_sort_spec fuel a 0 (N - 1)) as (a' & -> & Hre & Hasc); [lia..|].
  f_equal. pose proof Hre as (Hlen & Hperm & Hout).
  rewrite <- (take_drop (Z.to_nat N) a') at 1. f_equal.
  - apply (Sorted_unique Z.le).
    + apply ascending_Sorted. rewrite length_take.
      intros p q Hp Hpq Hq. rewrite !sel_take by lia. apply Hasc; lia.
    + apply Sorted_merge_sort; apply _.
    + unfold in_order. rewrite merge_sort_Permutation.
      pose proof (segment_perm a a' 0 (N - 1) Hre ltac:(lia)) as Hseg.
      unfold segment in Hseg. replace (N - 1 - 0 + 1) with N in Hseg by lia.
      exact Hseg.
  - apply list_eq. intros n. rewrite !lookup_drop.
    rewrite <- (Nat2Z.id (_ + n)). apply lookup_agree; [done|lia|].
    apply Hout; lia.
Qed.

Lemma in_order_prefix_length (a : list Z) (N : Z) :
  0 ≤ N ≤ Z.of_nat (length a) →
  Z.of_nat (length (in_order (take (Z.to_nat N) a))) = N.
Proof. intros HN. rewrite in_order_length, length_take. lia. Qed.

Lemma prefix_index_query (a : list Z) (N : Z) (fuel : nat) (k : Z) :
  1 ≤ N ≤ Z.of_nat (length a) → N + 4 ≤ Z.of_nat fuel → 0 ≤ k < N →
  (b ← quick_sort fuel a 0 (N - 1); v ← load b k; Done (b, v))
  = Done (in_order (take (Z.to_nat N) a) ++ drop (Z.to_nat N) a,
          sel (in_order (take (Z.to_nat N) a)) k).
Proof.
  intros HN Hfuel Hk. rewrite quick_sort_prefix by done. simpl.
  pose proof (in_order_prefix_length a N ltac:(lia)) as Hlen.
  rewrite load_Done by (rewrite length_app; lia). simpl.
  rewrite sel_app_l by lia. done.
Qed.

Lemma quartile_indices (N : Z) :
  1 ≤ N →
  (N - 1) ÷ 4 = (N - 1) / 4 ∧ (N - 1) ÷ 2 = (N - 1) / 2 ∧
  3 * (N - 1) ÷ 4 = 3 * (N - 1) / 4 ∧
  0 ≤ (N - 1) / 4 ∧ (N - 1) / 4 ≤ (N - 1) / 2 ∧
  (N - 1) / 2 ≤ 3 * (N - 1) / 4 ∧ 3 * (N - 1) / 4 < N.
Proof.
  intros HN. rewrite !Z.quot_div_nonneg by lia.
  pose proof (Z.div_mod (N - 1) 4 ltac:(lia)).
  pose proof (Z.mod_pos_bound (N - 1) 4 ltac:(lia)).
  pose proof (Z.div_mod (N - 1) 2 ltac:(lia)).
  pose proof (Z.mod_pos_bound (N - 1) 2 ltac:(lia)).
  pose proof (Z.div_mod (3 * (N - 1)) 4 ltac:(lia)).
  pose proof (Z.mod_pos_bound (3 * (N - 1)) 4 ltac:(lia)).
  lia.
Qed.

(** X6. A query with [num_elements] no more than the buffer's length sorts
    the first [num_elements] bytes only, leaves the rest of the buffer in
    place, and reads its index in the sorted prefix. *)
Theorem quartiles_of_prefix (a : list Z) (N : Z) (fuel : nat) :
  1 ≤ N ≤ Z.of_nat (length a) → N + 4 ≤ Z.of_nat fuel →
  let s := in_order (take (Z.to_nat N) a) in
  let b := s ++ drop (Z.to_nat N) a in
  lower_quartile fuel a N = Done (b, sel s ((N - 1) / 4)) ∧
  median fuel a N = Done (b, sel s ((N - 1) / 2)) ∧
  upper_quartile fuel a N = Done (b, sel s (3 * (N - 1) / 4)).
Proof.
  intros HN Hfuel s b. subst s b.
  destruct (quartile_indices N) as (E1 & E2 & E3 & ? & ? & ? & ?); [lia|].
  unfold lower_quartile, median, upper_quartile. rewrite E1, E2, E3.
  split_and!; apply prefix_index_query; lia.
Qed.

Lemma quartiles_of_prefix_witness :
  lower_quartile 7 [3; 1; 2; 0; 9] 3 = Done ([1; 2; 3; 0; 9], 1) ∧
  median 7 [3; 1; 2; 0; 9] 3 = Done ([1; 2; 3; 0; 9], 2) ∧
  upper_quartile 7 [3; 1; 2; 0; 9] 3 = Done ([1; 2; 3; 0; 9], 2).
Proof.
  assert (1 ≤ 3 ≤ Z.of_nat (length [3; 1; 2; 0; 9])) as HN by (simpl; lia).
  assert (3 + 4 ≤ Z.of_nat 7) as Hfuel by lia.
  exact (quartiles_of_prefix [3; 1; 2; 0; 9] 3 7 HN Hfuel).
Defined.

Lemma in_order_ascending (l : list Z) :
  ascending (in_order l) 0 (Z.of_nat (length l) - 1).
Proof.
  destruct (quick_sort_spec (length l + 4) l 0 (Z.of_nat (length l) - 1))
    as (a' & Hrun & _ & Hasc); [lia..|].
  rewrite quick_sort_in_order in Hrun by lia. by simplify_eq.
Qed.

Lemma sel_in_order_elem (l : list Z) (k : Z) :
  0 ≤ k < Z.of_nat (length l) → sel (in_order l) k ∈ l.
Proof.
  intros Hk. assert (sel (in_order l) k ∈ in_order l) as Hin.
  { apply list_elem_of_lookup. exists (Z.to_nat k). apply lookup_sel.
    by rewrite in_order_length. }
  revert Hin. generalize (sel (in_order l) k). intros v Hin.
  unfold in_order in Hin. by rewrite merge_sort_Permutation in Hin.
Qed.

(** X7. The three values are bytes of the container and come in order:
    lower quartile, then median, then upper quartile. *)
Theorem quartiles_ordered (l : list Z) (fuel : nat) :
  l ≠ [] → Z.of_nat (length l) + 4 ≤ Z.of_nat fuel →
  ∃ b q1 m q3,
    lower_quartile fuel l (Z.of_nat (length l)) = Done (b, q1) ∧
    median fuel l (Z.of_nat (length l)) = Done (b, m) ∧
    upper_quartile fuel l (Z.of_nat (length l)) = Done (b, q3) ∧
    q1 ≤ m ∧ m ≤ q3 ∧ q1 ∈ l ∧ m ∈ l ∧ q3 ∈ l.
Proof.
  intros Hne Hfuel.
  assert (1 ≤ Z.of_nat (length l)) as HN by (destruct l; [done|simpl length; lia]).
  destruct (quartile_indices _ HN) as (E1 & E2 & E3 & ? & ? & ? & ?).
  pose proof (in_order_ascending l) as Hasc.
  unfold lower_quartile, median, upper_quartile. rewrite E1, E2, E3.
  rewrite !sorted_index_query by lia.
  eexists _, _, _, _. split_and!; try done.
  - apply Hasc; lia.
  - apply Hasc; lia.
  - apply sel_in_order_elem; lia.
  - apply sel_in_order_elem; lia.
  - apply sel_in_order_elem; lia.
Qed.

Lemma quartiles_ordered_witness :
  ∃ b q1 m q3,
    lower_quartile 9 [40; 10; 30; 20; 50] 5 = Done (b, q1) ∧
    median 9 [40; 10; 30; 20; 50] 5 = Done (b, m) ∧
    upper_quartile 9 [40; 10; 30; 20; 50] 5 = Done (b, q3) ∧
    q1 ≤ m ∧ m ≤ q3 ∧ q1 ∈ [40; 10; 30; 20; 50] ∧ m ∈ [40; 10; 30; 20; 50]
    ∧ q3 ∈ [40; 10; 30; 20; 50].
Proof.
  assert ([40; 10; 30; 20; 50] ≠ @nil Z) as Hne by discriminate.
  assert (Z.of_nat (length [40; 10; 30; 20; 50]) + 4 ≤ Z.of_nat 9) as Hfuel
    by (simpl; lia).
  exact (quartiles_ordered [40; 10; 30; 20; 50] 9 Hne Hfuel).
Defined.

(** X8. The queries sort the caller's buffer, and a query on the buffer a
    query left gives what it gives on the original: the three values can
    be asked in any order. *)
Theorem queries_compose (l : list Z) (fuel : nat) :
  l ≠ [] → Z.of_nat (length l) + 4 ≤ Z.of_nat fuel →
  ∃ b m, median fuel l (Z.of_nat (length l)) = Done (b, m) ∧
         length b = length l ∧
         median fuel b (Z.of_nat (length l)) = Done (b, m) ∧
         lower_quartile fuel b (Z.of_nat (length l))
           = lower_quartile fuel l (Z.of_nat (length l)) ∧
         upper_quartile fuel b (Z.of_nat (length l))
           = upper_quartile fuel l (Z.of_nat (length l)).
Proof.
  intros Hne Hfuel.
  assert (1 ≤ Z.of_nat (length l)) as HN by (destruct l; [done|simpl length; lia]).
  destruct (quartile_indices _ HN) as (E1 & E2 & E3 & ? & ? & ? & ?).
  assert (in_order (in_order l) = in_order l) as Hidem.
  { apply in_order_perm. unfold in_order. by rewrite merge_sort_Permutation. }
  pose proof (in_order_length l) as Hlen.
  exists (in_order l), (sel (in_order l) ((Z.of_nat (length l) - 1) / 2)).
  unfold lower_quartile, median, upper_quartile. rewrite E1, E2, E3.
  assert (∀ k, 0 ≤ k < Z.of_nat (length l) →
            (b ← quick_sort fuel (in_order l) 0 (Z.of_nat (length l) - 1);
             v ← load b k; Done (b, v))
            = Done (in_order l, sel (in_order l) k)) as Hagain.
  { intros k Hk. pose proof (sorted_index_query (in_order l) fuel k) as Hq.
    rewrite Hlen, Hidem in Hq. apply Hq; lia. }
  rewrite !(sorted_index_query l) by lia.
  rewrite !Hagain by lia. done.
Qed.

Lemma queries_compose_witness :
  ∃ b m, median 7 [3; 1; 2] 3 = Done (b, m) ∧
         length b = length [3; 1; 2] ∧
         median 7 b 3 = Done (b, m) ∧
         lower_quartile 7 b 3 = lower_quartile 7 [3; 1; 2] 3 ∧
         upper_quartile 7 b 3 = upper_quartile 7 [3; 1; 2] 3.
Proof.
  assert ([3; 1; 2] ≠ @nil Z) as Hne by discriminate.
  assert (Z.of_nat (length [3; 1; 2]) + 4 ≤ Z.of_nat 7) as Hfuel by (simpl; lia).
  exact (queries_compose [3; 1; 2] 7 Hne Hfuel).
Defined.

(** X9. With [num_elements = 0] nothing is sorted and each query reads
    [array_list[0]], since the negative index expressions truncate to 0: a
    buffer with a first byte gives that byte, an empty one is read outside. *)
Theorem queries_on_zero_elements (a : list Z) (n : nat) :
  let r := match a with [] => Fault | v :: _ => Done (a, v) end in
  lower_quartile (S n) a 0 = r ∧ median (S n) a 0 = r ∧ upper_quartile (S n) a 0 = r.
Proof.
  unfold lower_quartile, median, upper_quartile. simpl quick_sort. simpl.
  by destruct a.
Qed.

(** ** median_blur on frames without interior *)

Lemma set_imageData_same (frame : IplImage) :
  set_imageData frame (imageData frame) = frame.
Proof. by destruct frame. Qed.

(** X10. A single-channel frame narrower or lower than the 11x11 window has
    no interior pixel: [median_blur] completes and leaves it as it was. *)
Theorem median_blur_without_interior (fuel : nat) (frame : IplImage) :
  nChannels frame = 1 →
  width frame < 2 * BLUR_RADIUS + 1 ∨ height frame < 2 * BLUR_RADIUS + 1 →
  median_blur fuel frame = (frame, Done ()).
Proof.
  intros Hch Hsmall. unfold median_blur. rewrite Hch. simpl negb. cbv iota.
  unfold BLUR_RADIUS in Hsmall.
  assert (∀ s, blur_pixels fuel frame s = (s, Done ())) as ->.
  { intros s. unfold blur_pixels.
    destruct (decide (height frame < 11)) as [Hh|Hh].
    - apply for_range_empty. unfold BLUR_RADIUS. lia.
    - apply for_range_skip. intros y _.
      apply for_range_empty. unfold BLUR_RADIUS. lia. }
  simpl. by rewrite set_imageData_same.
Qed.

Lemma median_blur_without_interior_witness :
  median_blur 0 {| nChannels := 1; width := 10; height := 30; widthStep := 12;
                   imageData := replicate 360 5 |}
  = ({| nChannels := 1; width := 10; height := 30; widthStep := 12;
        imageData := replicate 360 5 |}, Done ()).
Proof.
  apply (median_blur_without_interior 0); [reflexivity|].
  left. vm_compute. reflexivity.
Defined.

(** ** overlay_frame, whatever the frame *)

(** What a loop keeps whether it completes or not. *)
Lemma for_loop_preserves {St : Type} (P : St → Prop)
    (body : Z → St → run St) (n : nat) (lo : Z) (s s' : St) (r : outcome unit) :
  (∀ i s s' r, lo ≤ i < lo + Z.of_nat n → body i s = (s', r) → P s → P s') →
  for_loop n lo body s = (s', r) → P s → P s'.
Proof.
  revert lo s. induction n as [|n IH]; intros lo s Hbody Hrun Hs.
  - simpl in Hrun. by simplify_eq.
  - simpl in Hrun. destruct (body lo s) as [s1 r1] eqn:Hstep.
    assert (P s1) as Hs1 by (eapply (Hbody lo); [lia|done..]).
    destruct r1; simplify_eq; try done.
    eapply (IH (lo + 1)); [|done..]. intros i s2 s3 r3 Hi. apply Hbody. lia.
Qed.

Lemma for_range_preserves {St : Type} (P : St → Prop)
    (body : Z → St → run St) (lo hi : Z) (s s' : St) (r : outcome unit) :
  (∀ i s s' r, lo ≤ i < hi → body i s = (s', r) → P s → P s') →
  for_range lo hi body s = (s', r) → P s → P s'.
Proof.
  intros Hbody. unfold for_range. apply for_loop_preserves.
  intros i s1 s2 r2 Hi. apply Hbody. lia.
Qed.

(** The pixel loops keep whatever every [darken] of a channel of the frame
    keeps. *)
Lemma overlay_pixels_preserves (P : list Z → Prop)
    (frame : IplImage) (reg_x reg_y reg_height reg_width : Z)
    (d d' : list Z) (r : outcome unit) :
  (∀ x y w d d' r, in_frame frame x y w →
     darken frame x y w d = (d', r) → P d → P d') →
  overlay_pixels frame reg_x reg_y reg_height reg_width d = (d', r) →
  P d → P d'.
Proof.
  intros Hdarken. unfold overlay_pixels. apply for_range_preserves.
  intros y d1 d2 r2 Hy. apply for_range_preserves.
  intros x d3 d4 r4 Hx.
  destruct (in_box x y reg_x reg_y reg_width reg_height); simpl.
  - intros [= <- <-]. done.
  - apply for_range_preserves. intros w d5 d6 r6 Hw.
    apply Hdarken. unfold in_frame. lia.
Qed.

Lemma darken_inv (frame : IplImage) (x y w : Z) (d d' : list Z) (r : outcome unit) :
  darken frame x y w d = (d', r) →
  d' = d ∨
  (0 ≤ byte_addr frame x y w < Z.of_nat (length d) ∧
   d' = <[Z.to_nat (byte_addr frame x y w) :=
            uchar (sel d (byte_addr frame x y w)) ÷ 4]> d).
Proof.
  unfold darken, atomic. fold (byte_addr frame x y w).
  destruct (load d _) as [v| | |] eqn:Hload; simpl; try (intros [= <- <-]; by left).
  apply load_inv in Hload as [Hb <-].
  rewrite store_Done by done. intros [= <- <-]. right. done.
Qed.

(** No [darken] raises a byte. *)
Lemma overlay_pixels_bytes
    (frame : IplImage) (reg_x reg_y reg_height reg_width : Z)
    (d : list Z) (r : outcome unit) :
  Forall (λ b, 0 ≤ b < 256) (imageData frame) →
  overlay_pixels frame reg_x reg_y reg_height reg_width (imageData frame) = (d, r) →
  length d = length (imageData frame) ∧
  ∀ k, 0 ≤ k < Z.of_nat (length (imageData frame)) →
       0 ≤ sel d k ≤ sel (imageData frame) k.
Proof.
  intros Hbytes Hrun.
  assert (∀ k, 0 ≤ k < Z.of_nat (length (imageData frame)) →
               0 ≤ sel (imageData frame) k < 256) as Hbyte.
  { intros k Hk. rewrite Forall_lookup in Hbytes.
    apply (Hbytes (Z.to_nat k)), lookup_sel. lia. }
  apply (overlay_pixels_preserves
           (λ d, length d = length (imageData frame) ∧
                 ∀ k, 0 ≤ k < Z.of_nat (length (imageData frame)) →
                      0 ≤ sel d k ≤ sel (imageData frame) k)
           frame reg_x reg_y reg_height reg_width (imageData frame) d r);
    [|done|].
  - intros x y w d1 d2 r2 _ Hstep [Hlen Hle].
    apply darken_inv in Hstep as [->|[Hb ->]]; [done|].
    split; [by rewrite length_insert|]. intros k Hk.
    destruct (decide (k = byte_addr frame x y w)) as [->|Hne].
    + rewrite sel_insert_eq by done.
      specialize (Hle _ Hk). specialize (Hbyte _ Hk).
      unfold uchar. rewrite Z.mod_small by lia.
      rewrite Z.quot_div_nonneg by lia.
      pose proof (Z.div_mod (sel d1 (byte_addr frame x y w)) 4 ltac:(lia)).
      pose proof (Z.mod_pos_bound (sel d1 (byte_addr frame x y w)) 4 ltac:(lia)).
      lia.
    + rewrite sel_insert_ne by lia. by apply Hle.
  - split; [done|]. intros k Hk. specialize (Hbyte _ Hk). lia.
Qed.

(** X11. Whatever the frame's geometry and the region, and whether the run
    completes or not, [overlay_frame] keeps the frame's dimensions and the
    length of its storage and never raises a byte: each byte ends between 0
    and its original value. *)
Theorem overlay_never_brightens
    (frame : IplImage) (reg_x reg_y reg_height reg_width : Z) :
  Forall (λ b, 0 ≤ b < 256) (imageData frame) →
  let frame' := fst (overlay_frame frame reg_x reg_y reg_height reg_width) in
  nChannels frame' = nChannels frame ∧ width frame' = width frame ∧
  height frame' = height frame ∧ widthStep frame' = widthStep frame ∧
  length (imageData frame') = length (imageData frame) ∧
  ∀ k, 0 ≤ k < Z.of_nat (length (imageData frame)) →
       0 ≤ sel (imageData frame') k ≤ sel (imageData frame) k.
Proof.
  intros Hbytes. unfold overlay_frame.
  destruct (overlay_pixels frame reg_x reg_y reg_height reg_width (imageData frame))
    as [d r] eqn:Hrun. simpl.
  destruct (overlay_pixels_bytes frame reg_x reg_y reg_height reg_width d r
              Hbytes Hrun) as [Hlen Hle].
  by split_and!.
Qed.

Lemma overlay_never_brightens_witness :
  let frame := {| nChannels := 2; width := 2; height := 1; widthStep := 5;
                  imageData := [8; 9; 200; 255; 77] |} in
  let frame' := fst (overlay_frame frame 1 0 1 1) in
  nChannels frame' = nChannels frame ∧ width frame' = width frame ∧
  height frame' = height frame ∧ widthStep frame' = widthStep frame ∧
  length (imageData frame') = length (imageData frame) ∧
  ∀ k, 0 ≤ k < Z.of_nat (length (imageData frame)) →
       0 ≤ sel (imageData frame') k ≤ sel (imageData frame) k.
Proof.
  intros frame. apply (overlay_never_brightens frame 1 0 1 1).
  simpl. repeat (constructor; [lia|]). constructor.
Defined.

(** X12. [overlay_frame] writes pixel channels only: a byte of the storage
    that is no channel of any pixel of the frame (row padding, or bytes
    past the last row) is never changed, whether the run completes or not. *)
Theorem overlay_keeps_padding
    (frame : IplImage) (reg_x reg_y reg_height reg_width : Z) (k : Z) :
  0 ≤ k →
  (∀ x y w, in_frame frame x y w → byte_addr frame x y w ≠ k) →
  sel (imageData (fst (overlay_frame frame reg_x reg_y reg_height reg_width))) k
  = sel (imageData frame) k.
Proof.
  intros Hk Hpad. unfold overlay_frame.
  destruct (overlay_pixels frame reg_x reg_y reg_height reg_width (imageData frame))
    as [d r] eqn:Hrun. simpl.
  apply (overlay_pixels_preserves (λ d, sel d k = sel (imageData frame) k)
           frame reg_x reg_y reg_height reg_width (imageData frame) d r);
    [|done..].
  intros x y w d1 d2 r2 Hin Hstep Hd1.
  apply darken_inv in Hstep as [->|[Hb ->]]; [done|].
  rewrite sel_insert_ne; [done|lia|done|]. by apply Hpad.
Qed.

Lemma overlay_keeps_padding_witness :
  sel (imageData (fst (overlay_frame
         {| nChannels := 2; width := 2; height := 1; widthStep := 5;
            imageData := [8; 9; 200; 255; 77] |} 0 0 0 0))) 4
  = sel [8; 9; 200; 255; 77] 4.
Proof.
  apply (overlay_keeps_padding
           {| nChannels := 2; width := 2; height := 1; widthStep := 5;
              imageData := [8; 9; 200; 255; 77] |} 0 0 0 0 4); [lia|].
  intros x y w (Hx & Hy & Hw). unfold byte_addr. simpl in *. lia.
Defined.

(** X13. [overlay_frame] is no toggle and not idempotent: applied twice
    with the same region to a well-formed frame, it leaves the channels
    inside the box as they were and divides the others by 16. *)
Theorem overlay_frame_twice
    (frame : IplImage) (reg_x reg_y reg_height reg_width : Z) :
  well_formed frame →
  ∃ d1 d2,
    overlay_frame frame reg_x reg_y reg_height reg_width
      = (set_imageData frame d1, Done ()) ∧
    overlay_frame (set_imageData frame d1) reg_x reg_y reg_height reg_width
      = (set_imageData frame d2, Done ()) ∧
    ∀ x y w, in_frame frame x y w →
      sel d2 (byte_addr frame x y w) =
        if in_box x y reg_x reg_y reg_width reg_height
        then sel (imageData frame) (byte_addr frame x y w)
        else sel (imageData frame) (byte_addr frame x y w) / 16.
Proof.
  intros Hwf.
  destruct (overlay_pixels_spec frame reg_x reg_y reg_height reg_width Hwf)
    as (d1 & Hrun1 & Hlen1 & Hd1).
  pose proof Hwf as (Hch & Hstep & Hsize & Hbytes).
  destruct (overlay_pixels_bytes frame reg_x reg_y reg_height reg_width d1 _
              Hbytes Hrun1) as [_ Hle].
  assert (well_formed (set_imageData frame d1)) as Hwf1.
  { unfold well_formed. simpl. split_and!; [done|done|by rewrite Hlen1|].
    apply Forall_lookup. intros n b Hn.
    assert (Z.of_nat n < Z.of_nat (length (imageData frame))) as Hnlt
      by (apply lookup_lt_Some in Hn; lia).
    assert (0 ≤ sel (imageData frame) (Z.of_nat n) < 256) as Hold.
    { rewrite Forall_lookup in Hbytes. apply (Hbytes n).
      rewrite <- (Nat2Z.id n) at 1. apply lookup_sel. lia. }
    specialize (Hle (Z.of_nat n) ltac:(lia)).
    unfold sel in Hle at 1 2. rewrite Nat2Z.id, Hn in Hle. simpl in Hle. lia. }
  destruct (overlay_pixels_spec (set_imageData frame d1)
              reg_x reg_y reg_height reg_width Hwf1) as (d2 & Hrun2 & Hlen2 & Hd2).
  simpl imageData in Hrun2.
  exists d1, d2. unfold overlay_frame. rewrite Hrun1. simpl imageData.
  rewrite Hrun2. split_and!; [done..|].
  intros x y w Hin. specialize (Hd2 x y w Hin). specialize (Hd1 x y w Hin).
  change (byte_addr (set_imageData frame d1) x y w) with (byte_addr frame x y w) in Hd2.
  simpl imageData in Hd2. rewrite Hd2, Hd1.
  destruct (in_box x y reg_x reg_y reg_width reg_height); [done|].
  rewrite Z.div_div by lia. done.
Qed.

Lemma overlay_frame_twice_witness :
  ∃ d1 d2,
    overlay_frame {| nChannels := 1; width := 3; height := 1; widthStep := 3;
                     imageData := [160; 200; 255] |} 1 0 1 1
      = (set_imageData {| nChannels := 1; width := 3; height := 1; widthStep := 3;
                          imageData := [160; 200; 255] |} d1, Done ()) ∧
    overlay_frame (set_imageData
                     {| nChannels := 1; width := 3; height := 1; widthStep := 3;
                        imageData := [160; 200; 255] |} d1) 1 0 1 1
      = (set_imageData {| nChannels := 1; width := 3; height := 1; widthStep := 3;
                          imageData := [160; 200; 255] |} d2, Done ()) ∧
    d2 = [10; 200; 15].
Proof.
  assert (well_formed {| nChannels := 1; width := 3; height := 1; widthStep := 3;
                         imageData := [160; 200; 255] |}) as Hwf.
  { unfold well_formed. simpl. split_and!; [lia..|].
    repeat (constructor; [lia|]). constructor. }
  destruct (overlay_frame_twice _ 1 0 1 1 Hwf) as (d1 & d2 & Hrun1 & Hrun2 & _).
  exists d1, d2. split; [exact Hrun1|]. split; [exact Hrun2|].
  vm_compute in Hrun1. assert (d1 = [40; 200; 63]) as -> by congruence.
  vm_compute in Hrun2. congruence.
Defined.

(** ** The region sampler of final_calibration *)

Section RegionSampler.
Variables (frame : IplImage) (reg_x reg_y reg_height reg_width : Z).
Hypothesis Hheight : 0 < reg_height.
Hypothesis Hwidth : 0 < reg_width.
Hypothesis Hinside : ∀ x y k,
  in_region reg_x reg_y reg_height reg_width x y → 0 ≤ k < 3 →
  0 ≤ byte_addr frame x y k < Z.of_nat (length (imageData frame)).

Local Abbreviation size := (2 * reg_height * (2 * reg_width)).
Local Abbreviation index := (sample_index reg_x reg_y reg_height reg_width).
Local Abbreviation gathered := (gathered frame reg_x reg_y reg_height reg_width).

Lemma sample_index_bounds x y :
  in_region reg_x reg_y reg_height reg_width x y → 0 ≤ index x y < size.
Proof. intros [Hx Hy]. unfold sample_index. nia. Qed.

Lemma sample_index_inj x y x' y' :
  in_region reg_x reg_y reg_height reg_width x y →
  in_region reg_x reg_y reg_height reg_width x' y' →
  index x y = index x' y' → x = x' ∧ y = y'.
Proof.
  intros [Hx Hy] [Hx' Hy']. unfold sample_index. intros Heq.
  assert (y = y') as <- by nia. lia.
Qed.

Lemma gather_pixel_step x y st :
  in_region reg_x reg_y reg_height reg_width x y → gathered x y st →
  ∃ st', sample_pixel frame x y st = (st', Done ()) ∧ gathered (x + 1) y st'.
Proof.
  intros Hin (Hidx & Hh & Hs & Hv & Hseen).
  pose proof (sample_index_bounds x y Hin) as Hb.
  unfold sample_pixel, atomic.
  pose proof (Hinside x y 0 Hin ltac:(lia)) as H0.
  pose proof (Hinside x y 1 Hin ltac:(lia)) as H1.
  pose proof (Hinside x y 2 Hin ltac:(lia)) as H2.
  unfold byte_addr in H0, H1, H2. rewrite Z.add_0_r in H0.
  rewrite !load_Done by done. simpl.
  rewrite !store_Done by lia. simpl.
  eexists. split; [done|]. split_and!; simpl; rewrite ?length_insert; try lia.
  { unfold sample_index in *. lia. }
  intros x' y' Hin' Hlt.
  destruct (decide (index x' y' = idx st)) as [Heq|Hne].
  - rewrite Hidx in Heq.
    destruct (sample_index_inj x' y' x y Hin' Hin Heq) as [-> ->].
    rewrite <- Hidx. rewrite !sel_insert_eq by lia.
    unfold byte_addr. by rewrite Z.add_0_r.
  - rewrite !sel_insert_ne by (pose proof (sample_index_bounds x' y' Hin'); lia).
    apply Hseen; [done|lia].
Qed.

Lemma sample_region_gathers :
  ∃ st, sample_region frame reg_x reg_y reg_height reg_width
          {| h_arr := init_arr size; s_arr := init_arr size;
             v_arr := init_arr size; idx := 0 |} = (st, Done ())
        ∧ gathered (reg_x - reg_width) (reg_y + reg_height) st.
Proof.
  unfold sample_region.
  apply (for_range_inv (λ y st, gathered (reg_x - reg_width) y st)); [lia| |].
  - unfold init_arr, gathered, sample_index.
    split_and!; simpl; rewrite ?length_replicate; try lia.
    intros x y [Hx Hy] Hlt. nia.
  - intros y st Hy Hst.
    destruct (for_range_inv (λ x st, gathered x y st)
                (λ x, sample_pixel frame x y)
                (reg_x - reg_width) (reg_x + reg_width) st)
      as (st' & -> & Hidx & Hrest); [lia|done| |].
    + intros x st1 Hx Hst1. apply gather_pixel_step; [|done]. split; lia.
    + exists st'. split; [done|]. split; [|done].
      rewrite Hidx. unfold sample_index. lia.
Qed.
End RegionSampler.

(** X14. The region sampler.  For a region of positive half-extents whose
    pixels lie in the frame's storage, [final_calibration] counts
    [2 * reg_height * 2 * reg_width] pixels, and its sampling loops fill
    three containers of that size in row-major order: the sample at
    position [(y - (reg_y - reg_height)) * 2 * reg_width + (x - (reg_x -
    reg_width))] holds channels 0, 1 and 2 of pixel [(x, y)], for [x] from
    [reg_x - reg_width] up to but not including [reg_x + reg_width], and
    [y] likewise. *)
Theorem sample_region_row_major
    (frame : IplImage) (reg_x reg_y reg_height reg_width : Z) :
  0 < reg_height → 0 < reg_width →
  (∀ x y k, in_region reg_x reg_y reg_height reg_width x y → 0 ≤ k < 3 →
     0 ≤ byte_addr frame x y k < Z.of_nat (length (imageData frame))) →
  let size := 2 * reg_height * (2 * reg_width) in
  count_region reg_x reg_y reg_height reg_width 0 = (size, Done ()) ∧
  ∃ st, sample_region frame reg_x reg_y reg_height reg_width
          {| h_arr := init_arr size; s_arr := init_arr size;
             v_arr := init_arr size; idx := 0 |} = (st, Done ()) ∧
        idx st = size ∧
        Z.of_nat (length (h_arr st)) = size ∧
        Z.of_nat (length (s_arr st)) = size ∧
        Z.of_nat (length (v_arr st)) = size ∧
        ∀ x y, in_region reg_x reg_y reg_height reg_width x y →
          let i := sample_index reg_x reg_y reg_height reg_width x y in
          0 ≤ i < size ∧
          sel (h_arr st) i = sel (imageData frame) (byte_addr frame x y 0) ∧
          sel (s_arr st) i = sel (imageData frame) (byte_addr frame x y 1) ∧
          sel (v_arr st) i = sel (imageData frame) (byte_addr frame x y 2).
Proof.
  intros Hh Hw Hinside size. subst size. split.
  - apply count_region_spec; done.
  - destruct (sample_region_gathers frame reg_x reg_y reg_height reg_width
                Hh Hw Hinside) as (st & Hrun & Hidx & Hlh & Hls & Hlv & Hseen).
    exists st. split; [done|].
    assert (idx st = 2 * reg_height * (2 * reg_width)) as Hfull
      by (rewrite Hidx; unfold sample_index; lia).
    split_and!; try done.
    intros x y Hin i.
    pose proof Hin as Hb. apply sample_index_bounds in Hb; [|done..].
    split; [done|]. apply Hseen; [done|]. subst i. lia.
Qed.

Lemma sample_region_row_major_witness :
  ∃ st, sample_region
          {| nChannels := 3; width := 3; height := 2; widthStep := 10;
             imageData := [1; 2; 3; 4; 5; 6; 7; 8; 9; 0;
                           11; 12; 13; 14; 15; 16; 17; 18; 19; 0] |}
          1 1 1 1
          {| h_arr := init_arr 4; s_arr := init_arr 4; v_arr := init_arr 4;
             idx := 0 |} = (st, Done ()) ∧
        h_arr st = [1; 4; 11; 14] ∧ s_arr st = [2; 5; 12; 15]
        ∧ v_arr st = [3; 6; 13; 16].
Proof.
  destruct (sample_region_row_major
              {| nChannels := 3; width := 3; height := 2; widthStep := 10;
                 imageData := [1; 2; 3; 4; 5; 6; 7; 8; 9; 0;
                               11; 12; 13; 14; 15; 16; 17; 18; 19; 0] |}
              1 1 1 1) as (_ & st & Hrun & _); [lia|lia| |].
  - intros x y k [Hx Hy] Hk. unfold byte_addr. simpl. lia.
  - exists st. split; [exact Hrun|].
    vm_compute in Hrun. injection Hrun as <-. by vm_compute.
Defined.

(** ** Every band of final_calibration *)

Lemma final_calibration_inv (frame : IplImage) (c c' : calibration_t)
    (reg_x reg_y reg_height reg_width : Z) :
  final_calibration frame c reg_x reg_y reg_height reg_width = Done c' →
  ∃ size st hm sm vm,
    completed (count_region reg_x reg_y reg_height reg_width 0) = Done size ∧
    completed (sample_region frame reg_x reg_y reg_height reg_width
                 {| h_arr := init_arr size; s_arr := init_arr size;
                    v_arr := init_arr size; idx := 0 |}) = Done st ∧
    avg (h_arr st) = Done hm ∧ avg (s_arr st) = Done sm ∧ avg (v_arr st) = Done vm ∧
    c' = {| h_max := band_max hm; h_min := band_min hm;
            s_max := band_max sm; s_min := band_min sm;
            v_max := band_max vm; v_min := band_min vm; done := true;
            upper := cvScalar (band_max hm) (band_max sm) (band_max vm);
            lower := cvScalar (band_min hm) (band_min sm) (band_min vm) |}.
Proof.
  unfold final_calibration, standard_dev. intros Hrun.
  apply bind_Done_inv in Hrun as (size & Hcount & Hrun).
  apply bind_Done_inv in Hrun as (st & Hsample & Hrun).
  apply bind_Done_inv in Hrun as (hm & Hh & Hrun).
  apply bind_Done_inv in Hrun as (sm & Hs & Hrun).
  apply bind_Done_inv in Hrun as (vm & Hv & Hrun).
  exists size, st, hm, sm, vm. split_and!; try done. by simplify_eq.
Qed.

Lemma byte_lookup (d : list Z) (k v : Z) :
  Forall (λ b, 0 ≤ b < 256) d → load d k = Done v → 0 ≤ v < 256.
Proof.
  intros Hbytes Hload. apply load_inv in Hload as [Hk <-].
  rewrite Forall_lookup in Hbytes. apply (Hbytes (Z.to_nat k)). by apply lookup_sel.
Qed.

Lemma sample_pixel_bytes (frame : IplImage) (x y : Z)
    (st st' : sample_state) (r : outcome unit) :
  Forall (λ b, 0 ≤ b < 256) (imageData frame) →
  sample_pixel frame x y st = (st', r) → byte_samples st → byte_samples st'.
Proof.
  intros Hbytes Hstep (Hh & Hs & Hv). unfold sample_pixel, atomic in Hstep.
  match type of Hstep with
  | match ?m with _ => _ end = _ => destruct m as [st1| | |] eqn:Hm
  end; simplify_eq; try done.
  apply bind_Done_inv in Hm as (h & Hlh & Hm).
  apply bind_Done_inv in Hm as (ha & Hsh & Hm).
  apply bind_Done_inv in Hm as (s & Hls & Hm).
  apply bind_Done_inv in Hm as (sa & Hss & Hm).
  apply bind_Done_inv in Hm as (v & Hlv & Hm).
  apply bind_Done_inv in Hm as (va & Hsv & Hm).
  apply store_inv in Hsh as [_ ->]. apply store_inv in Hss as [_ ->].
  apply store_inv in Hsv as [_ ->]. simplify_eq.
  split_and!; simpl; apply Forall_insert; try done;
    (eapply byte_lookup; [exact Hbytes|done]).
Qed.

Lemma sample_region_bytes (frame : IplImage) (reg_x reg_y reg_height reg_width : Z)
    (st st' : sample_state) (r : outcome unit) :
  Forall (λ b, 0 ≤ b < 256) (imageData frame) →
  sample_region frame reg_x reg_y reg_height reg_width st = (st', r) →
  byte_samples st → byte_samples st'.
Proof.
  intros Hbytes. unfold sample_region. apply for_range_preserves.
  intros y st1 st2 r2 _. apply for_range_preserves.
  intros x st3 st4 r4 _. by apply sample_pixel_bytes.
Qed.

Lemma sum_bytes (arr : list Z) :
  Forall (λ b, 0 ≤ b < 256) arr →
  0 ≤ foldr Z.add 0 arr ≤ 255 * Z.of_nat (length arr).
Proof.
  induction 1 as [|b arr Hb _ IH]; simpl foldr; simpl length; lia.
Qed.

Lemma avg_byte (arr : list Z) (m : Z) :
  Forall (λ b, 0 ≤ b < 256) arr → avg arr = Done m → 0 ≤ m ≤ 255.
Proof.
  intros Hbytes. unfold avg.
  destruct (Z.eqb_spec (Z.of_nat (length arr)) 0) as [|Hne]; [done|].
  intros [= <-]. pose proof (sum_bytes arr Hbytes) as Hsum.
  rewrite Z.quot_div_nonneg by lia. split.
  - apply Z.div_pos; lia.
  - apply Z.div_le_upper_bound; lia.
Qed.

Lemma band_min_value (u : Z) :
  0 ≤ u ≤ 255 → band_min u = u * 6 / 10 ∧ 0 ≤ band_max u ≤ 255.
Proof.
  intros Hu.
  assert (forallb (λ n : nat,
            (band_min (Z.of_nat n) =? Z.of_nat n * 6 / 10)
            && (0 <=? band_max (Z.of_nat n)) && (band_max (Z.of_nat n) <=? 255))
            (seq 0 256) = true) as Hall by (vm_compute; reflexivity).
  rewrite forallb_forall in Hall.
  assert (In (Z.to_nat u) (seq 0 256)) as Hin by (apply in_seq; lia).
  specialize (Hall _ Hin). rewrite Z2Nat.id in Hall by lia.
  rewrite !andb_true_iff, Z.eqb_eq, !Z.leb_le in Hall. lia.
Qed.

Lemma band_order_iff (u : Z) :
  0 ≤ u ≤ 255 → band_min u ≤ band_max u ↔ u ≤ 182.
Proof.
  intros Hu. pose proof (band_order u Hu) as Hord.
  destruct (Z.leb_spec u 182); lia.
Qed.

(** X15. Every band [final_calibration] returns, on a frame of bytes and
    for any region: [done] is set; the [upper] and [lower] vectors repeat
    the six bounds; each bound is a byte; each lower edge is six tenths of
    its channel's mean, rounded down; and a channel's edges are in order
    exactly when its mean is at most 182. *)
Theorem final_calibration_band
    (frame : IplImage) (c c' : calibration_t)
    (reg_x reg_y reg_height reg_width : Z) :
  Forall (λ b, 0 ≤ b < 256) (imageData frame) →
  final_calibration frame c reg_x reg_y reg_height reg_width = Done c' →
  ∃ size st hm sm vm,
    completed (count_region reg_x reg_y reg_height reg_width 0) = Done size ∧
    completed (sample_region frame reg_x reg_y reg_height reg_width
                 {| h_arr := init_arr size; s_arr := init_arr size;
                    v_arr := init_arr size; idx := 0 |}) = Done st ∧
    avg (h_arr st) = Done hm ∧ avg (s_arr st) = Done sm ∧ avg (v_arr st) = Done vm ∧
    0 ≤ hm ≤ 255 ∧ 0 ≤ sm ≤ 255 ∧ 0 ≤ vm ≤ 255 ∧
    done c' = true ∧
    upper c' = cvScalar (h_max c') (s_max c') (v_max c') ∧
    lower c' = cvScalar (h_min c') (s_min c') (v_min c') ∧
    h_min c' = hm * 6 / 10 ∧ s_min c' = sm * 6 / 10 ∧ v_min c' = vm * 6 / 10 ∧
    0 ≤ h_max c' ≤ 255 ∧ 0 ≤ s_max c' ≤ 255 ∧ 0 ≤ v_max c' ≤ 255 ∧
    (h_min c' ≤ h_max c' ↔ hm ≤ 182) ∧
    (s_min c' ≤ s_max c' ↔ sm ≤ 182) ∧
    (v_min c' ≤ v_max c' ↔ vm ≤ 182).
Proof.
  intros Hbytes Hrun.
  apply final_calibration_inv in Hrun
    as (size & st & hm & sm & vm & Hcount & Hsample & Hh & Hs & Hv & ->).
  assert (byte_samples st) as (Bh & Bs & Bv).
  { destruct (sample_region frame reg_x reg_y reg_height reg_width _)
      as [st1 r1] eqn:Hloops.
    assert (st1 = st) as -> by (destruct r1; simpl in Hsample; by simplify_eq).
    apply (sample_region_bytes _ _ _ _ _ _ _ _ Hbytes Hloops).
    unfold byte_samples, init_arr. simpl.
    split_and!; apply Forall_replicate; lia. }
  pose proof (avg_byte _ _ Bh Hh) as Rh.
  pose proof (avg_byte _ _ Bs Hs) as Rs.
  pose proof (avg_byte _ _ Bv Hv) as Rv.
  destruct (band_min_value hm Rh) as [Mh Xh].
  destruct (band_min_value sm Rs) as [Ms Xs].
  destruct (band_min_value vm Rv) as [Mv Xv].
  exists size, st, hm, sm, vm. simpl.
  split_and!; try done; try lia;
    rewrite <- ?Mh, <- ?Ms, <- ?Mv; by apply band_order_iff.
Qed.

Lemma final_calibration_band_witness :
  ∃ c', final_calibration
          {| nChannels := 3; width := 2; height := 2; widthStep := 6;
             imageData := [10; 100; 200; 12; 100; 190; 10; 104; 200; 12; 100; 210] |}
          {| h_max := 0; h_min := 0; s_max := 0; s_min := 0; v_max := 0;
             v_min := 0; done := false; upper := []; lower := [] |} 1 1 1 1
        = Done c' ∧
        h_min c' = 6 ∧ h_max c' = 15 ∧ s_min c' = 60 ∧ s_max c' = 141 ∧
        v_min c' = 120 ∧ v_max c' = 24 ∧
        ∃ vm, (v_min c' ≤ v_max c' ↔ vm ≤ 182).
Proof.
  pose (frame := {| nChannels := 3; width := 2; height := 2; widthStep := 6;
                    imageData := [10; 100; 200; 12; 100; 190;
                                  10; 104; 200; 12; 100; 210] |}).
  pose (c0 := {| h_max := 0; h_min := 0; s_max := 0; s_min := 0; v_max := 0;
                 v_min := 0; done := false; upper := []; lower := [] |}).
  pose (c1 := {| h_max := 15; h_min := 6; s_max := 141; s_min := 60;
                 v_max := 24; v_min := 120; done := true;
                 upper := [15; 141; 24; 0]; lower := [6; 60; 120; 0] |}).
  assert (Forall (λ b, 0 ≤ b < 256) (imageData frame)) as Hbytes
    by (simpl; repeat (constructor; [lia|]); constructor).
  assert (final_calibration frame c0 1 1 1 1 = Done c1) as Hrun by (by vm_compute).
  destruct (final_calibration_band frame c0 c1 1 1 1 1 Hbytes Hrun)
    as (size & st & hm & sm & vm & _ & _ & _ & _ & _ & _ & _ & _ & _ & _ & _
        & _ & _ & _ & _ & _ & _ & _ & _ & Hord).
  exists c1. split; [exact Hrun|]. simpl. split_and!; try reflexivity.
  exists vm. exact Hord.
Defined.

(** X16. [generic_calibration] writes the six bounds and [done] only.
    Called on a band [final_calibration] filled in, it leaves [upper] and
    [lower] holding the sampled band, so the vectors no longer repeat the
    bounds unless the sampled band was the generic one; calling it again
    changes nothing. *)
Theorem generic_calibration_keeps_vectors
    (frame : IplImage) (c c1 : calibration_t)
    (reg_x reg_y reg_height reg_width : Z) :
  final_calibration frame c reg_x reg_y reg_height reg_width = Done c1 →
  let c2 := generic_calibration c1 in
  (h_max c2, h_min c2, s_max c2, s_min c2, v_max c2, v_min c2)
    = (25, 0, 150, 10, 255, 60) ∧
  done c2 = true ∧
  upper c2 = cvScalar (h_max c1) (s_max c1) (v_max c1) ∧
  lower c2 = cvScalar (h_min c1) (s_min c1) (v_min c1) ∧
  (upper c2 = cvScalar (h_max c2) (s_max c2) (v_max c2) →
   (h_max c1, s_max c1, v_max c1) = (25, 150, 255)) ∧
  generic_calibration c2 = c2.
Proof.
  intros Hrun c2. subst c2.
  apply final_calibration_inv in Hrun
    as (size & st & hm & sm & vm & _ & _ & _ & _ & _ & ->).
  simpl. split_and!; try done.
  unfold cvScalar. intros [= -> -> ->]. done.
Qed.

Lemma generic_calibration_keeps_vectors_witness :
  ∃ c1, final_calibration
          {| nChannels := 3; width := 2; height := 2; widthStep := 6;
             imageData := replicate 12 90 |}
          {| h_max := 0; h_min := 0; s_max := 0; s_min := 0; v_max := 0;
             v_min := 0; done := false; upper := []; lower := [] |} 1 1 1 1
        = Done c1 ∧
        upper (generic_calibration c1) = [125; 125; 125; 0] ∧
        h_max (generic_calibration c1) = 25.
Proof.
  pose (frame := {| nChannels := 3; width := 2; height := 2; widthStep := 6;
                    imageData := replicate 12 90 |}).
  pose (c0 := {| h_max := 0; h_min := 0; s_max := 0; s_min := 0; v_max := 0;
                 v_min := 0; done := false; upper := []; lower := [] |}).
  pose (c1 := {| h_max := 125; h_min := 54; s_max := 125; s_min := 54;
                 v_max := 125; v_min := 54; done := true;
                 upper := [125; 125; 125; 0]; lower := [54; 54; 54; 0] |}).
  assert (final_calibration frame c0 1 1 1 1 = Done c1) as Hrun by (by vm_compute).
  destruct (generic_calibration_keeps_vectors frame c0 c1 1 1 1 1 Hrun)
    as (_ & _ & Hupper & _).
  exists c1. split; [exact Hrun|]. split; [exact Hupper|reflexivity].
Defined.

(** ** The loop of calibrate *)

Lemma overlay_frame_completes (f : IplImage) (reg_x reg_y reg_height reg_width : Z) :
  well_formed f →
  ∃ d, overlay_frame f reg_x reg_y reg_height reg_width
       = (set_imageData f d, Done ()).
Proof.
  intros Hwf.
  destruct (overlay_pixels_spec f reg_x reg_y reg_height reg_width Hwf)
    as (d & Hrun & _).
  exists d. unfold overlay_frame. by rewrite Hrun.
Qed.

Section CalibrateLoop.
Variable cvFlip : IplImage → IplImage.
Variable cvCvtColor : Z → IplImage → IplImage.

(** One iteration that acquires a frame. *)
Lemma calibrate_loop_frame (fuel : nat) (flag : bool) (st : calib_state)
    (k : Z) (ks : list Z) (f f1 : IplImage) (fs : list (option IplImage))
    (rx ry rh rw : Z) :
  keys (cs_world st) = k :: ks → k ≠ key_q → cs_timer st < 90 →
  captures (cs_world st) = Some f :: fs →
  (rx, ry, rh, rw) =
    (if cs_reg_x st =? 0
     then (width f ÷ 2, height f ÷ 2, height f ÷ 20, width f ÷ 20)
     else (cs_reg_x st, cs_reg_y st, cs_reg_height st, cs_reg_width st)) →
  overlay_frame f rx ry rh rw = (f1, Done ()) →
  calibrate_loop cvFlip (S fuel) flag st =
  calibrate_loop cvFlip fuel flag
    {| cs_world := {| keys := ks; captures := fs;
                      events := events (cs_world st)
                                ++ [EvShow "Calibrate" (cvFlip f1)] |};
       cs_frame := Some (cvFlip f1);
       cs_reg_x := rx; cs_reg_y := ry; cs_reg_height := rh; cs_reg_width := rw;
       cs_timer := cs_timer st + 1 |}.
Proof.
  intros Hkeys Hk Htimer Hcap Hreg Hover. simpl calibrate_loop.
  unfold cvWaitKey. rewrite Hkeys.
  destruct (Z.eqb_spec k key_q) as [|_]; [done|]. simpl negb. simpl orb.
  destruct (Z.ltb_spec (cs_timer st) 90) as [_|]; [|lia]. simpl andb. cbv iota.
  unfold cvQueryFrame. simpl captures. rewrite Hcap. rewrite <- Hreg.
  rewrite Hover. simpl. done.
Qed.

(** One iteration in which no frame is ready. *)
Lemma calibrate_loop_null (fuel : nat) (flag : bool) (st : calib_state)
    (k : Z) (ks : list Z) (fs : list (option IplImage)) :
  keys (cs_world st) = k :: ks → k ≠ key_q → cs_timer st < 90 →
  captures (cs_world st) = None :: fs →
  calibrate_loop cvFlip (S fuel) flag st =
  calibrate_loop cvFlip fuel flag
    {| cs_world := {| keys := ks; captures := fs; events := events (cs_world st) |};
       cs_frame := None;
       cs_reg_x := cs_reg_x st; cs_reg_y := cs_reg_y st;
       cs_reg_height := cs_reg_height st; cs_reg_width := cs_reg_width st;
       cs_timer := cs_timer st + 1 |}.
Proof.
  intros Hkeys Hk Htimer Hcap. simpl calibrate_loop.
  unfold cvWaitKey. rewrite Hkeys.
  destruct (Z.eqb_spec k key_q) as [|_]; [done|]. simpl negb. simpl orb.
  destruct (Z.ltb_spec (cs_timer st) 90) as [_|]; [|lia]. simpl andb. cbv iota.
  unfold cvQueryFrame. simpl captures. rewrite Hcap. done.
Qed.

(** The iteration that reads [q] ends the loop and queries no frame. *)
Lemma calibrate_loop_confirm (fuel : nat) (st : calib_state) (ks : list Z) :
  keys (cs_world st) = key_q :: ks →
  calibrate_loop cvFlip (S fuel) false st =
  Done {| cs_world := {| keys := ks; captures := captures (cs_world st);
                         events := events (cs_world st) |};
          cs_frame := cs_frame st;
          cs_reg_x := cs_reg_x st; cs_reg_y := cs_reg_y st;
          cs_reg_height := cs_reg_height st; cs_reg_width := cs_reg_width st;
          cs_timer := cs_timer st |}.
Proof.
  intros Hkeys. simpl calibrate_loop. unfold cvWaitKey. rewrite Hkeys. done.
Qed.

(** The loop keeps to its budget. *)
Lemma calibrate_loop_budget (fuel : nat) (flag : bool) :
  ∀ st : calib_state,
  Forall usable (captures (cs_world st)) →
  0 ≤ cs_timer st ≤ 90 → 91 - cs_timer st ≤ Z.of_nat fuel →
  ∃ st', calibrate_loop cvFlip fuel flag st = Done st' ∧
         cs_timer st ≤ cs_timer st' ≤ 90 ∧
         Z.of_nat (length (captures (cs_world st)))
           ≤ Z.of_nat (length (captures (cs_world st'))) + (cs_timer st' - cs_timer st) ∧
         Z.of_nat (length (keys (cs_world st)))
           ≤ Z.of_nat (length (keys (cs_world st'))) + (cs_timer st' - cs_timer st) + 1.
Proof.
  induction fuel as [|fuel IH]; intros st Hcap Htimer Hfuel; [lia|].
  simpl calibrate_loop.
  destruct (cvWaitKey (cs_world st)) as [w1 k] eqn:Hkey.
  assert (captures w1 = captures (cs_world st) ∧
          Z.of_nat (length (keys (cs_world st))) ≤ Z.of_nat (length (keys w1)) + 1)
    as [Hcap1 Hkeys1].
  { unfold cvWaitKey in Hkey. destruct (keys (cs_world st)) as [|k0 ks] eqn:Hks;
      simplify_eq; simpl; rewrite ?Hks; simpl; split; (done || lia). }
  destruct ((negb (k =? key_q) || flag) && (cs_timer st <? 90)) eqn:Hcond.
  2:{ eexists. split; [done|]. simpl. rewrite Hcap1. lia. }
  apply andb_true_iff in Hcond as [_ Hlt%Z.ltb_lt].
  destruct (cvQueryFrame w1) as [w2 frame] eqn:Hquery.
  assert (usable frame ∧ Forall usable (captures w2) ∧ keys w2 = keys w1 ∧
          Z.of_nat (length (captures w1)) ≤ Z.of_nat (length (captures w2)) + 1)
    as (Hframe & Hcap2 & Hkeys2 & Hlen2).
  { unfold cvQueryFrame in Hquery. rewrite Hcap1 in Hquery.
    destruct (captures (cs_world st)) as [|f0 fs] eqn:Hfs; simplify_eq.
    - rewrite Hcap1. split_and!; try done; try lia.
    - apply Forall_cons in Hcap as [Hf0 Hfs']. simpl.
      split_and!; try done. rewrite Hcap1. simpl length. lia. }
  destruct frame as [f|].
  - destruct (if cs_reg_x st =? 0
              then (width f ÷ 2, height f ÷ 2, height f ÷ 20, width f ÷ 20)
              else (cs_reg_x st, cs_reg_y st, cs_reg_height st, cs_reg_width st))
      as [[[rx ry] rh] rw].
    destruct (overlay_frame_completes f rx ry rh rw Hframe) as (d & ->). simpl.
    match goal with
    | |- ∃ st', calibrate_loop _ _ _ ?s = _ ∧ _ =>
        specialize (IH s); simpl in IH;
        destruct (IH Hcap2 ltac:(lia) ltac:(lia)) as (st' & -> & Ht & Hc & Hk)
    end.
    exists st'. split; [done|]. rewrite Hkeys2 in Hk. rewrite Hcap1 in Hlen2. lia.
  - match goal with
    | |- ∃ st', calibrate_loop _ _ _ ?s = _ ∧ _ =>
        specialize (IH s); simpl in IH;
        destruct (IH Hcap2 ltac:(lia) ltac:(lia)) as (st' & -> & Ht & Hc & Hk)
    end.
    exists st'. split; [done|]. rewrite Hkeys2 in Hk. rewrite Hcap1 in Hlen2. lia.
Qed.

(** X17. The loop of [calibrate] keeps to its budget whatever the stream
    and the keys: on a stream of well-formed frames it ends after at most
    90 iterations, having asked for at most 90 frames and 91 keys. *)
Theorem calibrate_loop_within_budget (fuel : nat) (w : world) :
  Forall usable (captures w) → (91 ≤ fuel)%nat →
  ∃ st, calibrate_loop cvFlip fuel false
          {| cs_world := w; cs_frame := None;
             cs_reg_x := 0; cs_reg_y := 0; cs_reg_height := 0; cs_reg_width := 0;
             cs_timer := 0 |} = Done st ∧
        0 ≤ cs_timer st ≤ 90 ∧
        (length (captures w) ≤ length (captures (cs_world st)) + 90)%nat ∧
        (length (keys w) ≤ length (keys (cs_world st)) + 91)%nat.
Proof.
  intros Hcap Hfuel.
  destruct (calibrate_loop_budget fuel false
              {| cs_world := w; cs_frame := None;
                 cs_reg_x := 0; cs_reg_y := 0; cs_reg_height := 0; cs_reg_width := 0;
                 cs_timer := 0 |}) as (st & Hrun & Ht & Hc & Hk); simpl; [done|lia..|].
  exists st. simpl in *. split_and!; [done|lia..].
Qed.

(** X18. When [q] is the first key, [calibrate] asks for no frame: it
    converts the null frame pointer it started with, and faults. *)
Theorem calibrate_confirm_first (fuel : nat) (w : world) (c : calibration_t)
    (ks : list Z) :
  keys w = key_q :: ks →
  calibrate cvFlip cvCvtColor (S fuel) w c =
    ({| keys := ks; captures := captures w;
        events := events w ++ [EvCvtColor None CV_BGR2HSV] |}, Fault).
Proof.
  intros Hkeys. unfold calibrate. simpl done.
  rewrite (calibrate_loop_confirm fuel _ ks) by done. done.
Qed.

(** X19. One frame, then [q].  The region is derived from the frame
    (centre at half its width and height, half-extents a twentieth of
    them); the frame is overlaid, mirrored and shown; the shown frame is
    converted to HSV and sampled by [final_calibration], whose outcome is
    the outcome of [calibrate]; on success the frame is converted back and
    the window destroyed. *)
Theorem calibrate_one_frame (fuel : nat) (w : world) (c : calibration_t)
    (k : Z) (ks : list Z) (f : IplImage) (fs : list (option IplImage)) :
  keys w = k :: key_q :: ks → k ≠ key_q →
  captures w = Some f :: fs → well_formed f →
  let rx := width f ÷ 2 in
  let ry := height f ÷ 2 in
  let rh := height f ÷ 20 in
  let rw := width f ÷ 20 in
  ∃ d, overlay_frame f rx ry rh rw = (set_imageData f d, Done ()) ∧
       let shown := cvFlip (set_imageData f d) in
       let hsv := cvCvtColor CV_BGR2HSV shown in
       snd (calibrate cvFlip cvCvtColor (S (S fuel)) w c)
         = final_calibration hsv c rx ry rh rw ∧
       ∀ c', final_calibration hsv c rx ry rh rw = Done c' →
         fst (calibrate cvFlip cvCvtColor (S (S fuel)) w c) =
         {| keys := ks; captures := fs;
            events := events w ++
              [EvShow "Calibrate" shown; EvCvtColor (Some shown) CV_BGR2HSV;
               EvCvtColor (Some hsv) CV_HSV2BGR; EvDestroyWindow "Calibrate"] |}.
Proof.
  intros Hkeys Hk Hcap Hwf rx ry rh rw.
  destruct (overlay_frame_completes f rx ry rh rw Hwf) as (d & Hover).
  exists d. split; [done|]. intros shown hsv.
  unfold calibrate. simpl done.
  rewrite (calibrate_loop_frame (S fuel) false _ k (key_q :: ks) f
             (set_imageData f d) fs rx ry rh rw)
    by (simpl; first [done | lia]).
  rewrite (calibrate_loop_confirm fuel _ ks) by done.
  simpl. fold shown. fold hsv.
  change (final_calibration hsv _ rx ry rh rw)
    with (final_calibration hsv c rx ry rh rw).
  destruct (final_calibration hsv c rx ry rh rw) as [c'| | |]; simpl.
  - split; [done|]. intros c'' _. unfold emit. simpl.
    rewrite <- !app_assoc. done.
  - split; [done|]. done.
  - split; [done|]. done.
  - split; [done|]. done.
Qed.

(** X20. A frame acquired earlier is lost when a later query returns
    none: the frame pointer is overwritten by every query, so a frame, then
    no frame, then [q], makes [calibrate] convert the null pointer. *)
Theorem calibrate_last_query_null (fuel : nat) (w : world) (c : calibration_t)
    (k1 k2 : Z) (ks : list Z) (f : IplImage) (fs : list (option IplImage)) :
  keys w = k1 :: k2 :: key_q :: ks → k1 ≠ key_q → k2 ≠ key_q →
  captures w = Some f :: None :: fs → well_formed f →
  ∃ d, overlay_frame f (width f ÷ 2) (height f ÷ 2) (height f ÷ 20) (width f ÷ 20)
         = (set_imageData f d, Done ()) ∧
       calibrate cvFlip cvCvtColor (S (S (S fuel))) w c =
         ({| keys := ks; captures := fs;
             events := events w ++
               [EvShow "Calibrate" (cvFlip (set_imageData f d));
                EvCvtColor None CV_BGR2HSV] |}, Fault).
Proof.
  intros Hkeys Hk1 Hk2 Hcap Hwf.
  destruct (overlay_frame_completes f (width f ÷ 2) (height f ÷ 2)
              (height f ÷ 20) (width f ÷ 20) Hwf) as (d & Hover).
  exists d. split; [done|].
  unfold calibrate. simpl done.
  rewrite (calibrate_loop_frame (S (S fuel)) false _ k1 (k2 :: key_q :: ks) f
             (set_imageData f d) (None :: fs) (width f ÷ 2) (height f ÷ 2)
             (height f ÷ 20) (width f ÷ 20))
    by (simpl; first [done | lia]).
  rewrite (calibrate_loop_null (S fuel) false _ k2 (key_q :: ks) fs)
    by (simpl; first [done | lia]).
  rewrite (calibrate_loop_confirm fuel _ ks) by done.
  simpl. unfold emit. simpl. rewrite <- !app_assoc. done.
Qed.
End CalibrateLoop.

(** X21. The region is fixed by the first frame wider than one pixel and
    reused for every later frame, whatever its size: with two frames and
    then [q], the second frame is overlaid and sampled with the region
    derived from the first. *)
Theorem calibrate_region_of_first_frame
    (cvFlip : IplImage → IplImage) (cvCvtColor : Z → IplImage → IplImage)
    (fuel : nat) (w : world) (c : calibration_t)
    (k1 k2 : Z) (ks : list Z) (f g : IplImage) (fs : list (option IplImage)) :
  keys w = k1 :: k2 :: key_q :: ks → k1 ≠ key_q → k2 ≠ key_q →
  captures w = Some f :: Some g :: fs →
  well_formed f → well_formed g → 2 ≤ width f →
  let rx := width f ÷ 2 in
  let ry := height f ÷ 2 in
  let rh := height f ÷ 20 in
  let rw := width f ÷ 20 in
  ∃ d, overlay_frame g rx ry rh rw = (set_imageData g d, Done ()) ∧
       snd (calibrate cvFlip cvCvtColor (S (S (S fuel))) w c)
         = final_calibration
             (cvCvtColor CV_BGR2HSV (cvFlip (set_imageData g d))) c rx ry rh rw.
Proof.
  intros Hkeys Hk1 Hk2 Hcap Hwf Hwg Hwide rx ry rh rw.
  destruct (overlay_frame_completes f rx ry rh rw Hwf) as (df & Hover).
  destruct (overlay_frame_completes g rx ry rh rw Hwg) as (d & Hoverg).
  exists d. split; [done|].
  assert (rx ≠ 0) as Hrx.
  { subst rx. pose proof (Z.quot_pos (width f) 2 ltac:(lia) ltac:(lia)).
    intros Hz. pose proof (Z.quot_rem' (width f) 2).
    pose proof (Z.rem_bound_pos (width f) 2 ltac:(lia) ltac:(lia)). lia. }
  unfold calibrate. simpl done.
  rewrite (calibrate_loop_frame cvFlip (S (S fuel)) false _ k1 (k2 :: key_q :: ks) f
             (set_imageData f df) (Some g :: fs) rx ry rh rw)
    by (simpl; first [done | lia]).
  rewrite (calibrate_loop_frame cvFlip (S fuel) false _ k2 (key_q :: ks) g
             (set_imageData g d) fs rx ry rh rw)
    by (simpl; first [done | lia | by destruct (Z.eqb_spec rx 0)]).
  rewrite (calibrate_loop_confirm cvFlip fuel _ ks) by done.
  simpl.
  change (final_calibration ?h _ rx ry rh rw)
    with (final_calibration h c rx ry rh rw).
  by destruct (final_calibration _ c rx ry rh rw).
Qed.

Lemma small_frame_well_formed :
  well_formed {| nChannels := 3; width := 2; height := 2; widthStep := 6;
                 imageData := replicate 12 90 |}.
Proof.
  unfold well_formed. simpl. split_and!; [lia..|].
  repeat (constructor; [lia|]). constructor.
Qed.

Lemma calibrate_loop_within_budget_witness :
  ∃ st, calibrate_loop (λ f, f) 91 false
          {| cs_world := {| keys := [32; 113]; captures := [None]; events := [] |};
             cs_frame := None;
             cs_reg_x := 0; cs_reg_y := 0; cs_reg_height := 0; cs_reg_width := 0;
             cs_timer := 0 |} = Done st ∧
        0 ≤ cs_timer st ≤ 90 ∧
        (length [@None IplImage] ≤ length (captures (cs_world st)) + 90)%nat ∧
        (length [32; 113] ≤ length (keys (cs_world st)) + 91)%nat.
Proof.
  apply (calibrate_loop_within_budget (λ f, f) 91
           {| keys := [32; 113]; captures := [None]; events := [] |}).
  - simpl. repeat constructor.
  - lia.
Defined.

Lemma calibrate_confirm_first_witness :
  calibrate (λ f, f) (λ _ f, f) 1
    {| keys := [113; 32]; captures := [None]; events := [] |}
    {| h_max := 0; h_min := 0; s_max := 0; s_min := 0; v_max := 0; v_min := 0;
       done := false; upper := []; lower := [] |}
  = ({| keys := [32]; captures := [None];
        events := [] ++ [EvCvtColor None CV_BGR2HSV] |}, Fault).
Proof.
  apply (calibrate_confirm_first (λ f, f) (λ _ f, f) 0
           {| keys := [113; 32]; captures := [None]; events := [] |}).
  reflexivity.
Defined.

Lemma calibrate_one_frame_witness :
  let f := {| nChannels := 3; width := 2; height := 2; widthStep := 6;
              imageData := replicate 12 90 |} in
  let w := {| keys := [32; 113]; captures := [Some f]; events := [] |} in
  let c := {| h_max := 0; h_min := 0; s_max := 0; s_min := 0; v_max := 0;
              v_min := 0; done := false; upper := []; lower := [] |} in
  ∃ d, overlay_frame f 1 1 0 0 = (set_imageData f d, Done ()) ∧
       snd (calibrate (λ f, f) (λ _ f, f) 2 w c)
         = final_calibration (set_imageData f d) c 1 1 0 0.
Proof.
  intros f w c.
  destruct (calibrate_one_frame (λ f, f) (λ _ f, f) 0 w c 32 [] f []
              eq_refl ltac:(unfold key_q; lia) eq_refl small_frame_well_formed)
    as (d & Hover & Hsnd & _).
  exists d. split; [exact Hover|exact Hsnd].
Defined.

Lemma calibrate_last_query_null_witness :
  let f := {| nChannels := 3; width := 2; height := 2; widthStep := 6;
              imageData := replicate 12 90 |} in
  let w := {| keys := [32; 32; 113]; captures := [Some f; None]; events := [] |} in
  let c := {| h_max := 0; h_min := 0; s_max := 0; s_min := 0; v_max := 0;
              v_min := 0; done := false; upper := []; lower := [] |} in
  snd (calibrate (λ f, f) (λ _ f, f) 3 w c) = Fault.
Proof.
  intros f w c.
  destruct (calibrate_last_query_null (λ f, f) (λ _ f, f) 0 w c 32 32 [] f []
              eq_refl ltac:(unfold key_q; lia) ltac:(unfold key_q; lia)
              eq_refl small_frame_well_formed)
    as (d & _ & Hrun).
  by rewrite Hrun.
Defined.

Lemma calibrate_region_of_first_frame_witness :
  let f := {| nChannels := 3; width := 2; height := 2; widthStep := 6;
              imageData := replicate 12 90 |} in
  let g := {| nChannels := 3; width := 1; height := 1; widthStep := 3;
              imageData := [7; 8; 9] |} in
  let w := {| keys := [32; 32; 113]; captures := [Some f; Some g]; events := [] |} in
  let c := {| h_max := 0; h_min := 0; s_max := 0; s_min := 0; v_max := 0;
              v_min := 0; done := false; upper := []; lower := [] |} in
  ∃ d, overlay_frame g 1 1 0 0 = (set_imageData g d, Done ()) ∧
       snd (calibrate (λ f, f) (λ _ f, f) 3 w c)
         = final_calibration (set_imageData g d) c 1 1 0 0.
Proof.
  intros f g w c.
  assert (well_formed g) as Hwg.
  { unfold well_formed. simpl. split_and!; [lia..|].
    repeat (constructor; [lia|]). constructor. }
  exact (calibrate_region_of_first_frame (λ f, f) (λ _ f, f) 0 w c 32 32 [] f g []
           eq_refl ltac:(unfold key_q; lia) ltac:(unfold key_q; lia)
           eq_refl small_frame_well_formed Hwg ltac:(simpl; lia)).
Defined.

(** ** main_snake.c *)

Lemma char_of_int_letter (key c : Z) :
  0 ≤ c < 128 → (Snake.char_of_int key = c ↔ key mod 256 = c).
Proof.
  intros Hc. unfold Snake.char_of_int.
  pose proof (Z.div_mod key 256 ltac:(lia)) as Hk.
  pose proof (Z.mod_pos_bound key 256 ltac:(lia)) as Hb.
  split; intros Heq.
  - assert ((key + 128) mod 256 = c + 128) as Hm by lia.
    pose proof (Z.div_mod (key + 128) 256 ltac:(lia)) as Hk'.
    rewrite Hm in Hk'. lia.
  - assert (key + 128 = (c + 128) + (key / 256) * 256) as -> by lia.
    rewrite Z_mod_plus_full, Z.mod_small by lia. lia.
Qed.

Lemma char_of_int_period (key n : Z) :
  Snake.char_of_int (key + 256 * n) = Snake.char_of_int key.
Proof.
  unfold Snake.char_of_int.
  replace (key + 256 * n + 128) with (key + 128 + n * 256) by lia.
  by rewrite Z_mod_plus_full.
Qed.

Lemma steer_axis (key : Z) (d : Snake.vector_t) :
  Z.abs (Snake.x d) + Z.abs (Snake.y d) = 1 →
  Z.abs (Snake.x (Snake.steer key d)) + Z.abs (Snake.y (Snake.steer key d)) = 1.
Proof.
  intros Hd. unfold Snake.steer. cbv zeta.
  destruct (Snake.char_of_int key =? 68), (Snake.char_of_int key =? 83),
    (Snake.char_of_int key =? 65), (Snake.char_of_int key =? 87); simpl; lia.
Qed.

Lemma steer_other (key : Z) (d : Snake.vector_t) :
  key mod 256 ∉ [87; 65; 83; 68] → Snake.steer key d = d.
Proof.
  intros Hc. unfold Snake.steer. cbv zeta.
  assert (∀ c, 0 ≤ c < 128 → c ∈ [87; 65; 83; 68] →
            (Snake.char_of_int key =? c) = false) as Hno.
  { intros c Hr Hin. apply Z.eqb_neq. intros Heq.
    apply char_of_int_letter in Heq; [|done]. apply Hc. by rewrite Heq. }
  rewrite !Hno; first done; first [lia | rewrite !elem_of_cons; tauto].
Qed.

Lemma steer_letter (key c : Z) (d d' : Snake.vector_t) :
  c ∈ [87; 65; 83; 68] → key mod 256 = c → Snake.steer key d = Snake.steer c d'.
Proof.
  intros Hc Hkey.
  assert (0 ≤ c < 128) as Hr.
  { repeat (apply elem_of_cons in Hc as [->|Hc]; [lia|]). by apply elem_of_nil in Hc. }
  assert (Snake.char_of_int key = c) as Hk by (by apply char_of_int_letter).
  assert (Snake.char_of_int c = c) as Hk'.
  { apply char_of_int_letter; [done|]. apply Z.mod_small. lia. }
  unfold Snake.steer. cbv zeta. rewrite Hk, Hk'.
  repeat (apply elem_of_cons in Hc as [->|Hc]; [done|]).
  by apply elem_of_nil in Hc.
Qed.

(** X22. Whatever keys are read, [snake_dir] stays one of the four unit
    vectors along an axis.  A key acts by its low eight bits alone, since it
    is stored in a [char]: keys whose low eight bits are not the code of a
    capital W, A, S or D, lower-case letters included, leave [snake_dir] as
    it is; a key that differs from such a code by a multiple of 256 (343 for
    W) steers as the letter does; and the last steering key read decides
    [snake_dir], a reversal included. *)
Theorem snake_dir_axis (keys more : list Z) (key c : Z) :
  let d := Snake.steer_all keys Snake.initial_dir in
  Z.abs (Snake.x d) + Z.abs (Snake.y d) = 1 ∧
  (Forall (λ k, k mod 256 ∉ [87; 65; 83; 68]) more →
   Snake.steer_all (keys ++ more) Snake.initial_dir = d) ∧
  (c ∈ [87; 65; 83; 68] → key mod 256 = c →
   Forall (λ k, k mod 256 ∉ [87; 65; 83; 68]) more →
   Snake.steer_all (keys ++ key :: more) Snake.initial_dir
   = Snake.steer c Snake.initial_dir
   ∧ Snake.steer c Snake.initial_dir
     = (if c =? 87 then {| Snake.x := 0; Snake.y := -1 |}
        else if c =? 65 then {| Snake.x := -1; Snake.y := 0 |}
        else if c =? 83 then {| Snake.x := 0; Snake.y := 1 |}
        else {| Snake.x := 1; Snake.y := 0 |})).
Proof.
  intros d. subst d. unfold Snake.steer_all.
  assert (∀ ks d0, Forall (λ k, k mod 256 ∉ [87; 65; 83; 68]) ks →
            foldl (λ d c, Snake.steer c d) d0 ks = d0) as Hignore.
  { induction ks as [|k ks IH]; intros d0 Hks; [done|].
    apply Forall_cons in Hks as [Hk Hks]. simpl.
    rewrite steer_other by done. by apply IH. }
  split_and!.
  - induction keys as [|k keys IH] using rev_ind; [by vm_compute|].
    rewrite foldl_app. simpl. by apply steer_axis.
  - intros Hmore. rewrite foldl_app. by apply Hignore.
  - intros Hc Hkey Hmore. split.
    + rewrite foldl_app. simpl. rewrite Hignore by done.
      by apply steer_letter.
    + repeat (apply elem_of_cons in Hc as [->|Hc]; [by vm_compute|]).
      by apply elem_of_nil in Hc.
Qed.

Lemma snake_dir_axis_witness :
  Snake.steer_all ([68] ++ 343 :: [119; -1]) Snake.initial_dir
  = {| Snake.x := 0; Snake.y := -1 |}.
Proof.
  destruct (snake_dir_axis [68] [119; -1] 343 87) as (_ & _ & Hsteer).
  destruct Hsteer as [Hlast Hdir].
  - rewrite !elem_of_cons. tauto.
  - reflexivity.
  - repeat (constructor;
            [intros Hin;
             repeat (apply elem_of_cons in Hin as [Hin|Hin]; [discriminate Hin|]);
             by apply elem_of_nil in Hin|]).
    constructor.
  - etrans; [exact Hlast|exact Hdir].
Defined.
